(** * Verification development for the pyhep2020-pyroot notebooks

    Two parts:
    - [LargestSum]: the three [largest_sum] kernels of
      [efficient_python.ipynb] (the jitted C++ function, the pure Python
      function and the precompiled [optimized_largest_sum] of
      [analysis.cxx]), translated from their source.
    - [Engine] and [Adoption]: the lazy computation graph (Filter, Define,
      Range, Histo1D, AsNumpy, Report) and the buffer adoption
      ([np.asarray], [ROOT.VecOps.AsRVec]) that the notebooks call.  That
      code belongs to ROOT and numpy and is not part of the notebooks, so
      it is modelled from the specification of the engine. *)

From Stdlib Require Import ZArith QArith Qround Lia.
From stdpp Require Import base list gmap strings.
From Stdlib Require Reals Lra Psatz.

(* ===================================================================== *)
(** * The [largest_sum] kernels *)
(* ===================================================================== *)

Module LargestSum.

Section Kernels.
(** [F] is the element type ([float] in C++, [numpy.float32] in Python),
    [fadd] its addition, [fgt] the comparison [>] and [m999] the initial
    value [-999.f] (resp. [-999.0]). No property of them is assumed. *)
Context {F : Type} (fadd : F -> F -> F) (fgt : F -> F -> bool) (m999 : F).

(** One iteration of the inner loop body:
    [const auto tmp = v1[i1] + v2[i2]; if (tmp > r) r = tmp;] *)
Definition body (r a b : F) : F :=
  let tmp := fadd a b in if fgt tmp r then tmp else r.

(** The jitted C++ function
<<
float largest_sum(float* v1, float* v2, std::size_t size){
  float r = -999.f;
  for (size_t i1 = 0; i1 < size; i1++)
      for (size_t i2 = 0; i2 < size; i2++) {
          const auto tmp = v1[i1] + v2[i2];
          if (tmp > r) r = tmp;
      }
  return r;
}
>>
    Pointer reads are list lookups; a read past the end of a buffer is
    undefined behaviour and yields [None]. *)
Definition largest_sum_cpp (v1 v2 : list F) (size : nat) : option F :=
  fold_left (fun acc i1 =>
    fold_left (fun acc i2 =>
      r ← acc; a ← v1 !! i1; b ← v2 !! i2; Some (body r a b))
      (seq 0 size) acc)
    (seq 0 size) (Some m999).

(** The index pairs [(i1, i2)] the loop nest visits, in its order. *)
Definition loop_pairs (size : nat) : list (nat * nat) :=
  seq 0 size ≫= (fun i1 => (fun i2 => (i1, i2)) <$> seq 0 size).

(** The loop body at the index pair [(i1, i2)]. *)
Definition step_at (v1 v2 : list F) (acc : option F) (ij : nat * nat) : option F :=
  let '(i1, i2) := ij in
  r ← acc; a ← v1 !! i1; b ← v2 !! i2; Some (body r a b).

(** Whether the pair [(i1, i2)] is read in bounds and its operands and sum
    are finite ([finite] tells the finite values of [F]). *)
Definition pair_ok (finite : F -> bool) (v1 v2 : list F) (ij : nat * nat) : bool :=
  match v1 !! ij.1, v2 !! ij.2 with
  | Some a, Some b => finite a && finite b && finite (fadd a b)
  | _, _ => false
  end.

(** [optimized_largest_sum] of [analysis.cxx]: the same source text,
    compiled ahead of time with [g++ -Ofast].  [-Ofast] turns on
    [-ffast-math]: under [-ffinite-math-only] the compiler assumes that no
    operand and no result is NaN or infinite, so the result is unspecified
    ([None]) when one is; under [-fassociative-math] it may vectorise the
    reduction of [r] and visit the index pairs in another order, the
    schedule [sched] it picks.  A read past the end of a buffer is
    undefined behaviour ([None]) as well. *)
Definition optimized_largest_sum (finite : F -> bool)
    (sched : list (nat * nat) -> list (nat * nat))
    (v1 v2 : list F) (size : nat) : option F :=
  if forallb (pair_ok finite v1 v2) (loop_pairs size)
  then fold_left (step_at v1 v2) (sched (loop_pairs size)) (Some m999)
  else None.

(** The pure Python function
<<
def largest_sum(x1, x2):
  r = -999.0
  for e1 in x1:
      for e2 in x2:
          tmp = e1 + e2
          if tmp > r: r = tmp
  return r
>> *)
Definition largest_sum_py (x1 x2 : list F) : F :=
  fold_left (fun r e1 => fold_left (fun r e2 => body r e1 e2) x2 r) x1 m999.

End Kernels.

(** Instance of the kernels on exact integers, a model of the values where
    no rounding and no NaN occur (every value is finite). *)
Definition largest_sum_cpp_Z := largest_sum_cpp Z.add Z.gtb (-999)%Z.
Definition optimized_largest_sum_Z := optimized_largest_sum Z.add Z.gtb (-999)%Z (fun _ => true).
Definition largest_sum_py_Z := largest_sum_py Z.add Z.gtb (-999)%Z.

(** The result the claim describes: the maximum of [v1[i1] + v2[i2]] over
    all index pairs, [-999] when there is no pair. *)
Definition all_sums (v1 v2 : list Z) : list Z :=
  v1 ≫= (fun a => (fun b => (a + b)%Z) <$> v2).

Definition max_of_sums (v1 v2 : list Z) : Z :=
  match all_sums v1 v2 with
  | [] => (-999)%Z
  | s :: ss => fold_left Z.max ss s
  end.

(** What the kernels return: the larger of [-999] and every sum. *)
Definition sentinel_max_of_sums (v1 v2 : list Z) : Z :=
  fold_left Z.max (all_sums v1 v2) (-999)%Z.

End LargestSum.

(* ===================================================================== *)
(** * The lazy computation graph *)
(* ===================================================================== *)

(** Modelled from the spec: the RDataFrame engine (Filter, Define, Range,
    Histo1D, AsNumpy, Report and the lazy event loop) that
    [rdataframe_analysis.ipynb] and [interoperability.ipynb] call.  It is
    ROOT code, absent from the repository; the model follows sections 3,
    4 and 7 of the specification: a builder appends nodes to a tree rooted
    at the source, an executor runs one pass over the rows on the first
    read of any booked result. *)
Module Engine.

Inductive Value :=
| VNum (x : Q)
| VVec (xs : list Q).

(** A row maps column names to values; the latest binding wins. *)
Definition Row := list (string * Value).

Fixpoint row_get (c : string) (r : Row) : option Value :=
  match r with
  | [] => None
  | (c', v) :: r' => if bool_decide (c = c') then Some v else row_get c r'
  end.

Definition row_set (c : string) (v : Value) (r : Row) : Row := (c, v) :: r.

(** The row sequence of a source: a row, or a read that raises. *)
Inductive Item :=
| RowOk (r : Row)
| ReadFailure.

Record Source := {
  src_name : string;
  src_columns : list string;
  src_items : list Item
}.

(** Predicates, derivations and projections are opaque callables (compiled
    snippets); [cols] lists the columns they reference. *)
Inductive NodeKind :=
| FilterNode (cols : list string) (pred : Row -> bool) (name : option string)
| DefineNode (col : string) (cols : list string) (expr : Row -> Value)
| RangeNode (n : nat).

(** A chain handle: the node ids from the source to the end of the chain. *)
Definition Handle := list nat.

(** Each node records the handle of the chain it was appended to. *)
Record Node := { up : Handle; kind : NodeKind }.

Inductive ActionSpec :=
| HistoSpec (nbins : nat) (lo hi : Q) (cols : list string) (proj : Row -> Q)
| NumpySpec (cols : list string)
| ReportSpec.

Record Action := { act_at : Handle; act_spec : ActionSpec }.

Record Plan := {
  source : Source;
  nodes : list Node;
  actions : list Action
}.

Inductive result (A E : Type) :=
| Ok (a : A)
| Err (e : E).
Arguments Ok {A E} a.
Arguments Err {A E} e.

Inductive BuildError := InvalidExpression | NameCollision.
Inductive EvalError := SourceReadError.
Inductive ReadError := NotBooked | EvalFailed (e : EvalError).

(** ** Graph construction *)

Definition defined_cols (ns : list Node) (h : Handle) : list string :=
  h ≫= (fun i => match ns !! i with
                 | Some {| kind := DefineNode c _ _ |} => [c]
                 | _ => []
                 end).

Definition columns_at (p : Plan) (h : Handle) : list string :=
  src_columns (source p) ++ defined_cols (nodes p) h.

Definition refs_ok (avail cols : list string) : bool :=
  forallb (fun c => bool_decide (c ∈ avail)) cols.

Definition append_node (p : Plan) (h : Handle) (k : NodeKind) : Plan * Handle :=
  ({| source := source p;
      nodes := nodes p ++ [{| up := h; kind := k |}];
      actions := actions p |},
   h ++ [length (nodes p)]).

Definition Filter (p : Plan) (h : Handle) (cols : list string)
    (pred : Row -> bool) (name : option string)
    : Plan * result Handle BuildError :=
  if refs_ok (columns_at p h) cols
  then let '(p', h') := append_node p h (FilterNode cols pred name) in (p', Ok h')
  else (p, Err InvalidExpression).

Definition Define (p : Plan) (h : Handle) (c : string) (cols : list string)
    (expr : Row -> Value) : Plan * result Handle BuildError :=
  if bool_decide (c ∈ columns_at p h) then (p, Err NameCollision)
  else if refs_ok (columns_at p h) cols
  then let '(p', h') := append_node p h (DefineNode c cols expr) in (p', Ok h')
  else (p, Err InvalidExpression).

Definition Range (p : Plan) (h : Handle) (n : nat) : Plan * Handle :=
  append_node p h (RangeNode n).

(** Booking appends an action and returns its index, the handle of its
    result; nothing is run. *)
Definition book (p : Plan) (a : Action) : Plan * nat :=
  ({| source := source p; nodes := nodes p; actions := actions p ++ [a] |},
   length (actions p)).

Definition Histo1D (p : Plan) (h : Handle) (nbins : nat) (lo hi : Q)
    (cols : list string) (proj : Row -> Q) : Plan * result nat BuildError :=
  if refs_ok (columns_at p h) cols
  then let '(p', k) := book p {| act_at := h; act_spec := HistoSpec nbins lo hi cols proj |}
       in (p', Ok k)
  else (p, Err InvalidExpression).

Definition AsNumpy (p : Plan) (h : Handle) (cols : list string)
    : Plan * result nat BuildError :=
  if refs_ok (columns_at p h) cols
  then let '(p', k) := book p {| act_at := h; act_spec := NumpySpec cols |}
       in (p', Ok k)
  else (p, Err InvalidExpression).

Definition Report (p : Plan) (h : Handle) : Plan * nat :=
  book p {| act_at := h; act_spec := ReportSpec |}.

(** A handle is well formed when each of its nodes was appended to the
    chain made of the ids before it. *)
Fixpoint wf_from (ns : list Node) (pre : Handle) (h : Handle) : bool :=
  match h with
  | [] => true
  | i :: h' =>
      match ns !! i with
      | Some n => bool_decide (up n = pre) && wf_from ns (pre ++ [i]) h'
      | None => false
      end
  end.

Definition wf_handle (ns : list Node) (h : Handle) : bool := wf_from ns [] h.

Definition wf_plan (p : Plan) : bool :=
  forallb (fun n => wf_handle (nodes p) (up n)) (nodes p) &&
  forallb (fun a => wf_handle (nodes p) (act_at a)) (actions p).


(** ** The evaluation pass *)

(** Counters of a node: rows that reached it and rows it passed on.  For
    a Range node [passed] is the running row count, reset at each pass. *)
Record NodeState := { seen : nat; passed : nat }.

Definition node_init : NodeState := {| seen := 0; passed := 0 |}.

Definition node_step (k : NodeKind) (st : NodeState) (o : option Row)
    : NodeState * option Row :=
  match o with
  | None => (st, None)
  | Some r =>
      match k with
      | FilterNode _ pred _ =>
          if pred r then ({| seen := S (seen st); passed := S (passed st) |}, Some r)
          else ({| seen := S (seen st); passed := passed st |}, None)
      | DefineNode c _ expr =>
          ({| seen := S (seen st); passed := S (passed st) |},
           Some (row_set c (expr r) r))
      | RangeNode n =>
          if passed st <? n
          then ({| seen := S (seen st); passed := S (passed st) |}, Some r)
          else ({| seen := S (seen st); passed := passed st |}, None)
      end
  end.

(** Walk a chain from the source: the row, as derived, that leaves the last
    node of [h], or [None] when a node drops it.  The counters are read
    before the row is accounted. *)
Fixpoint run_path (ns : list Node) (sts : list NodeState) (h : Handle)
    (o : option Row) : option Row :=
  match h with
  | [] => o
  | i :: h' =>
      run_path ns sts h'
        (match ns !! i, sts !! i with
         | Some n, Some st => snd (node_step (kind n) st o)
         | _, _ => None
         end)
  end.

(** ** Which nodes run

    A Range node stops its branch once it has let [n] rows through (its
    processed count reached the bound).  An action takes rows while no
    Range node of its chain is exhausted; the actions pull their chains,
    so a node runs a row only while some live action lies below it, and
    the pass stops reading the source once no action is live. *)
Definition range_done (ns : list Node) (sts : list NodeState) (j : nat) : bool :=
  match ns !! j, sts !! j with
  | Some {| kind := RangeNode n |}, Some st => n <=? passed st
  | _, _ => false
  end.

Definition action_live (ns : list Node) (sts : list NodeState) (a : Action) : bool :=
  forallb (fun j => negb (range_done ns sts j)) (act_at a).

Definition node_live (ns : list Node) (acts : list Action) (sts : list NodeState)
    (i : nat) : bool :=
  existsb (fun a => bool_decide (i ∈ act_at a) && action_live ns sts a) acts.

(** Account one row at every running node, each seeing the row as its own
    chain delivers it. *)
Definition update_nodes (ns : list Node) (acts : list Action) (sts : list NodeState)
    (r : Row) : list NodeState :=
  imap (fun i st =>
          match ns !! i with
          | Some n =>
              if node_live ns acts sts i
              then fst (node_step (kind n) st (run_path ns sts (up n) (Some r)))
              else st
          | None => st
          end) sts.

(** Fixed-binning histogram: [length h_bins] bins over [[lo, hi)]. *)
Record Histo := { h_bins : list nat; h_dropped : nat }.

Definition find_bin (nbins : nat) (lo hi x : Q) : option nat :=
  if Qle_bool lo x && negb (Qle_bool hi x)
  then Some (Z.to_nat (Qfloor ((x - lo) * inject_Z (Z.of_nat nbins) / (hi - lo))))
  else None.

Definition fill (lo hi : Q) (h : Histo) (x : Q) : Histo :=
  match find_bin (length (h_bins h)) lo hi x with
  | Some k =>
      if decide (k < length (h_bins h))
      then {| h_bins := alter S k (h_bins h); h_dropped := h_dropped h |}
      else {| h_bins := h_bins h; h_dropped := S (h_dropped h) |}
  | None => {| h_bins := h_bins h; h_dropped := S (h_dropped h) |}
  end.

Inductive Acc :=
| HistoAcc (h : Histo)
| NumpyAcc (bufs : list (list (option Value)))
| ReportAcc.

Definition acc_init (a : ActionSpec) : Acc :=
  match a with
  | HistoSpec nbins _ _ _ _ => HistoAcc {| h_bins := replicate nbins 0; h_dropped := 0 |}
  | NumpySpec cols => NumpyAcc ((fun _ => []) <$> cols)
  | ReportSpec => ReportAcc
  end.

Definition acc_add (a : ActionSpec) (acc : Acc) (r : Row) : Acc :=
  match a, acc with
  | HistoSpec _ lo hi _ proj, HistoAcc h => HistoAcc (fill lo hi h (proj r))
  | NumpySpec cols, NumpyAcc bufs =>
      NumpyAcc (zip_with (fun c buf => buf ++ [row_get c r]) cols bufs)
  | _, _ => acc
  end.

Record PassState := {
  ps_nodes : list NodeState;
  ps_accs : list Acc;
  ps_rows : nat
}.

Definition init_pass (p : Plan) : PassState :=
  {| ps_nodes := (fun _ => node_init) <$> nodes p;
     ps_accs := (fun a => acc_init (act_spec a)) <$> actions p;
     ps_rows := 0 |}.

Definition row_step (p : Plan) (ps : PassState) (r : Row) : PassState :=
  {| ps_nodes := update_nodes (nodes p) (actions p) (ps_nodes ps) r;
     ps_accs := zip_with (fun a acc =>
                   match run_path (nodes p) (ps_nodes ps) (act_at a) (Some r) with
                   | Some r' => acc_add (act_spec a) acc r'
                   | None => acc
                   end) (actions p) (ps_accs ps);
     ps_rows := S (ps_rows ps) |}.

Fixpoint run_pass (p : Plan) (items : list Item) (ps : PassState)
    : result PassState EvalError :=
  match items with
  | [] => Ok ps
  | it :: rest =>
      if existsb (action_live (nodes p) (ps_nodes ps)) (actions p) then
        match it with
        | ReadFailure => Err SourceReadError
        | RowOk r => run_pass p rest (row_step p ps r)
        end
      else Ok ps
  end.

Record CutInfo := { ci_name : string; ci_pass : nat; ci_all : nat }.

Record CutFlowReport := { entries : list CutInfo; root_total : nat }.

Inductive AValue :=
| HistoV (h : Histo)
| NumpyV (bufs : list (string * list (option Value)))
| ReportV (rep : CutFlowReport).

(** Named filters of the chain [h], in declaration order. *)
Definition report_of (ns : list Node) (sts : list NodeState) (h : Handle)
    (total : nat) : CutFlowReport :=
  {| entries :=
       h ≫= (fun i => match ns !! i, sts !! i with
                      | Some {| kind := FilterNode _ _ (Some nm) |}, Some st =>
                          [{| ci_name := nm; ci_pass := passed st; ci_all := seen st |}]
                      | _, _ => []
                      end);
     root_total := total |}.

Definition finish_action (ns : list Node) (ps : PassState) (a : Action) (acc : Acc)
    : AValue :=
  match act_spec a, acc with
  | HistoSpec _ _ _ _ _, HistoAcc h => HistoV h
  | NumpySpec cols, NumpyAcc bufs => NumpyV (zip cols bufs)
  | _, _ => ReportV (report_of ns (ps_nodes ps) (act_at a) (ps_rows ps))
  end.

Definition evaluate (p : Plan) : result (list AValue) EvalError :=
  match run_pass p (src_items (source p)) (init_pass p) with
  | Ok ps => Ok (zip_with (finish_action (nodes p) ps) (actions p) (ps_accs ps))
  | Err e => Err e
  end.

(** Efficiencies of a cutflow entry, in percent-free form. *)
Definition efficiency (c : CutInfo) : Q :=
  if ci_all c =? 0 then 0%Q else (inject_Z (Z.of_nat (ci_pass c)) / inject_Z (Z.of_nat (ci_all c)))%Q.

Definition cumulative_efficiency (rep : CutFlowReport) (c : CutInfo) : Q :=
  if root_total rep =? 0 then 0%Q
  else (inject_Z (Z.of_nat (ci_pass c)) / inject_Z (Z.of_nat (root_total rep)))%Q.

(** ** Lazy results *)

Inductive Status :=
| Pending
| Done (vs : list AValue)
| Failed (e : EvalError).

(** [passes] counts the evaluation passes, i.e. iterations of the source. *)
Record Exec := { plan : Plan; status : Status; passes : nat }.

Definition start (p : Plan) : Exec := {| plan := p; status := Pending; passes := 0 |}.

Definition lookup_value (vs : list AValue) (k : nat) : result AValue ReadError :=
  match vs !! k with Some v => Ok v | None => Err NotBooked end.

(** Reading the value behind result handle [k]; the first read runs the
    pass for every booked action. *)
Definition GetValue (x : Exec) (k : nat) : Exec * result AValue ReadError :=
  match status x with
  | Done vs => (x, lookup_value vs k)
  | Failed e => (x, Err (EvalFailed e))
  | Pending =>
      match evaluate (plan x) with
      | Ok vs => ({| plan := plan x; status := Done vs; passes := S (passes x) |},
                  lookup_value vs k)
      | Err e => ({| plan := plan x; status := Failed e; passes := S (passes x) |},
                  Err (EvalFailed e))
      end
  end.

Fixpoint read_all (x : Exec) (ks : list nat) : Exec * list (result AValue ReadError) :=
  match ks with
  | [] => (x, [])
  | k :: ks' =>
      let '(x1, v) := GetValue x k in
      let '(x2, vs) := read_all x1 ks' in (x2, v :: vs)
  end.

(** ** Batch reading of the same graph

    The rows that survive a chain, computed over the whole row list at
    once: Filter keeps the rows its predicate accepts, Define extends each
    row, Range keeps the first [n]. *)
Definition apply_kind (k : NodeKind) (rows : list Row) : list Row :=
  match k with
  | FilterNode _ pred _ => List.filter pred rows
  | DefineNode c _ expr => (fun r => row_set c (expr r) r) <$> rows
  | RangeNode n => take n rows
  end.

Fixpoint chain_rows (ns : list Node) (h : Handle) (rows : list Row) : list Row :=
  match h with
  | [] => rows
  | i :: h' =>
      chain_rows ns h' (match ns !! i with Some n => apply_kind (kind n) rows | None => [] end)
  end.

(** Stopping, read from the batch semantics: [P] is the prefix of the
    source read so far. *)
Definition range_done_b (ns : list Node) (P : list Row) (j : nat) : bool :=
  match ns !! j with
  | Some {| up := u; kind := RangeNode n |} => n <=? length (chain_rows ns (u ++ [j]) P)
  | _ => false
  end.

Definition action_live_b (ns : list Node) (P : list Row) (a : Action) : bool :=
  forallb (fun j => negb (range_done_b ns P j)) (act_at a).

Definition node_live_b (ns : list Node) (acts : list Action) (P : list Row) (i : nat) : bool :=
  existsb (fun a => bool_decide (i ∈ act_at a) && action_live_b ns P a) acts.

Definition pass_live_b (ns : list Node) (acts : list Action) (P : list Row) : bool :=
  existsb (action_live_b ns P) acts.

(** The number of leading rows of [rows] read while [live] holds of the
    rows read before them ([P] already read). *)
Fixpoint live_len (live : list Row -> bool) (P rows : list Row) : nat :=
  match rows with
  | [] => 0
  | r :: rows' => if live P then S (live_len live (P ++ [r]) rows') else 0
  end.

(** The rows the pass reads, and the rows node [i] runs. *)
Definition pass_rows (ns : list Node) (acts : list Action) (rows : list Row) : nat :=
  live_len (pass_live_b ns acts) [] rows.

Definition node_rows (ns : list Node) (acts : list Action) (rows : list Row) (i : nat) : nat :=
  live_len (fun P => node_live_b ns acts P i) [] rows.

(** Cutflow entries of the named filters of [h], filter [i] counting over
    the rows [rows_at i]. *)
Definition cut_entries (ns : list Node) (rows_at : nat -> list Row) (h : Handle)
    : list CutInfo :=
  h ≫= (fun i => match ns !! i with
                 | Some {| up := u; kind := FilterNode _ _ (Some nm) |} =>
                     [{| ci_name := nm;
                         ci_pass := length (chain_rows ns (u ++ [i]) (rows_at i));
                         ci_all := length (chain_rows ns u (rows_at i)) |}]
                 | _ => []
                 end).

(** The value each action would have, read from the batch semantics: a
    histogram or an export over the rows that survive its chain, a report
    over the rows each of its filters ran. *)
Definition batch_report (ns : list Node) (acts : list Action) (rows : list Row)
    (h : Handle) : CutFlowReport :=
  {| entries := cut_entries ns (fun i => take (node_rows ns acts rows i) rows) h;
     root_total := pass_rows ns acts rows |}.

Definition batch_value (ns : list Node) (acts : list Action) (rows : list Row)
    (a : Action) : AValue :=
  let surv := chain_rows ns (act_at a) rows in
  match act_spec a with
  | HistoSpec nbins lo hi _ proj =>
      HistoV (fold_left (fill lo hi) (proj <$> surv)
                {| h_bins := replicate nbins 0; h_dropped := 0 |})
  | NumpySpec cols => NumpyV (zip cols ((fun c => row_get c <$> surv) <$> cols))
  | ReportSpec => ReportV (batch_report ns acts rows (act_at a))
  end.

(** The derivation a surviving row has undergone along a chain. *)
Fixpoint derive (ns : list Node) (h : Handle) (r : Row) : Row :=
  match h with
  | [] => r
  | i :: h' =>
      derive ns h' (match ns !! i with
                    | Some {| kind := DefineNode c _ expr |} => row_set c (expr r) r
                    | _ => r
                    end)
  end.

(** The same plan with the bound of the Range node [i] set to [m]. *)
Definition set_range (p : Plan) (i m : nat) : Plan :=
  {| source := source p;
     nodes := alter (fun n => {| up := up n; kind := RangeNode m |}) i (nodes p);
     actions := actions p |}.

End Engine.

(** The analysis of [rdataframe_analysis.ipynb] on the small source of the
    specification's scenario, with one more row so that the Range bound
    binds, and an export on the sibling branch before the Range. *)
Module Scenario.
Import Engine.
Local Open Scope string_scope.

Definition r1 : Row := [("nMuon", VNum 2); ("Muon_charge", VVec [1; -1]%Q)].
Definition r2 : Row := [("nMuon", VNum 2); ("Muon_charge", VVec [1; 1]%Q)].
Definition r3 : Row := [("nMuon", VNum 3); ("Muon_charge", VVec [1; -1; 1]%Q)].
Definition r4 : Row := [("nMuon", VNum 2); ("Muon_charge", VVec [-1; 1]%Q)].
Definition rows : list Row := [r1; r2; r3; r4].

Definition events : Source :=
  {| src_name := "Events"; src_columns := ["nMuon"; "Muon_charge"];
     src_items := RowOk <$> rows |}.

Definition events_broken : Source :=
  {| src_name := "Events"; src_columns := ["nMuon"; "Muon_charge"];
     src_items := [RowOk r1; ReadFailure; RowOk r3] |}.

Definition two_muons (r : Row) : bool :=
  match row_get "nMuon" r with Some (VNum x) => Qeq_bool x 2 | _ => false end.

Definition opposite_charge (r : Row) : bool :=
  match row_get "Muon_charge" r with
  | Some (VVec (a :: b :: _)) => negb (Qeq_bool a b)
  | _ => false
  end.

Definition compute_mass (r : Row) : Value :=
  match row_get "Muon_charge" r with
  | Some (VVec (a :: _)) => VNum (3 + a)%Q
  | _ => VNum 0
  end.

Definition mass_of (r : Row) : Q :=
  match row_get "Dimuon_mass" r with Some (VNum x) => x | _ => 0%Q end.

Definition unwrap {A E : Type} (d : A) (r : result A E) : A :=
  match r with Ok a => a | Err _ => d end.

Definition analysis (src : Source) : Plan :=
  let p0 := {| source := src; nodes := []; actions := [] |} in
  let '(p1, h1) := Filter p0 [] ["nMuon"] two_muons
                     (Some "Events with exactly two muons") in
  let h1 := unwrap [] h1 in
  let '(p2, h2) := Filter p1 h1 ["Muon_charge"] opposite_charge
                     (Some "Muons with opposite charge") in
  let h2 := unwrap [] h2 in
  let '(p3, h3) := Range p2 h2 1 in
  let '(p4, h4) := Define p3 h3 "Dimuon_mass" ["Muon_charge"] compute_mass in
  let h4 := unwrap [] h4 in
  let '(p5, _) := Histo1D p4 h4 5 0 10 ["Dimuon_mass"] mass_of in
  let '(p6, _) := Report p5 h4 in
  let '(p7, _) := AsNumpy p6 h4 ["Dimuon_mass"] in
  let '(p8, _) := AsNumpy p7 h2 ["nMuon"] in
  p8.

(** The same analysis without the export on the sibling branch: every
    action lies behind the Range node. *)
Definition analysis_ranged (src : Source) : Plan :=
  let p := analysis src in
  {| source := source p; nodes := nodes p; actions := take 3 (actions p) |}.

End Scenario.

(* ===================================================================== *)
(** * Invariants of the single pass *)
(* ===================================================================== *)

Module PassInvariants.
Import Engine.

(** The row a node emits, as a list of zero or one rows. *)
Definition opt_rows (o : option Row) : list Row :=
  match o with Some r => [r] | None => [] end.

(** After the rows [P] have been read: node [i] has accounted the rows its
    branch delivered from the first [node_rows] rows of [P] (those it ran),
    and each action is live in the pass exactly when it is in the batch
    reading of [P]. *)
Definition states_ok (ns : list Node) (acts : list Action) (sts : list NodeState)
    (P : list Row) : Prop :=
  length sts = length ns /\
  (forall i n st, ns !! i = Some n -> sts !! i = Some st ->
    seen st = length (chain_rows ns (up n) (take (node_rows ns acts P i) P)) /\
    passed st = length (chain_rows ns (up n ++ [i]) (take (node_rows ns acts P i) P))) /\
  (forall a, a ∈ acts -> action_live ns sts a = action_live_b ns P a).

(** The counters of the nodes of [h] after each of them ran all rows [P]. *)
Definition states_on (ns : list Node) (sts : list NodeState) (P : list Row)
    (h : Handle) : Prop :=
  forall i n st, i ∈ h -> ns !! i = Some n -> sts !! i = Some st ->
    seen st = length (chain_rows ns (up n) P) /\
    passed st = length (chain_rows ns (up n ++ [i]) P).

(** Each accumulator holds the fold of its action over the rows that
    survived its chain so far. *)
Definition accs_ok (ns : list Node) (acts : list Action) (accs : list Acc)
    (P : list Row) : Prop :=
  accs = (fun a => fold_left (acc_add (act_spec a)) (chain_rows ns (act_at a) P)
                     (acc_init (act_spec a))) <$> acts.

End PassInvariants.

(* ===================================================================== *)
(** * Buffer adoption between C++ containers and numpy arrays *)
(* ===================================================================== *)

(** Modelled from the spec: the notebook's interoperability cells adopt
    memory with [np.asarray] (a [std::vector] seen as a numpy array) and
    [ROOT.VecOps.AsRVec] (a numpy array seen as an [RVec]); the adoption
    itself is done by numpy and ROOT. A buffer lives in a heap; an owning
    array names its buffer, and an adopted array is a borrowed view of the
    owner's buffer, valid while that buffer is alive. *)
Module Adoption.

Definition BufId := nat.
Abbreviation Heap := (gmap BufId (list Q)).

(** An owning array: [std::vector<float>] or [numpy.ndarray]. *)
Record Owner := { own_buf : BufId }.

(** A borrowed view: the buffer it reads and the length it was adopted with. *)
Record View := { view_buf : BufId; view_len : nat }.

(** Construction of an owner, e.g. [ROOT.std.vector['float']((1, 2, 3))]. *)
Definition alloc (hp : Heap) (xs : list Q) : Heap * Owner :=
  let b := fresh (dom hp) in (<[b := xs]> hp, {| own_buf := b |}).

(** Adoption reads the owner's length and shares its buffer; nothing is
    copied. Adopting a freed buffer fails. *)
Definition adopt (hp : Heap) (o : Owner) : option View :=
  xs ← hp !! own_buf o; Some {| view_buf := own_buf o; view_len := length xs |}.

Definition np_asarray (hp : Heap) (o : Owner) : option View := adopt hp o.
Definition AsRVec (hp : Heap) (o : Owner) : option View := adopt hp o.

(** [owner[i]]: [None] is the IndexError of an index out of range. *)
Definition owner_get (hp : Heap) (o : Owner) (i : nat) : option Q :=
  xs ← hp !! own_buf o; xs !! i.

(** [owner[i] = x]. *)
Definition owner_set (hp : Heap) (o : Owner) (i : nat) (x : Q) : option Heap :=
  xs ← hp !! own_buf o;
  if decide (i < length xs) then Some (<[own_buf o := <[i := x]> xs]> hp) else None.

(** [view[i]]: within the adopted length, read through to the buffer. *)
Definition view_get (hp : Heap) (v : View) (i : nat) : option Q :=
  if decide (i < view_len v) then xs ← hp !! view_buf v; xs !! i else None.

(** The notebook cell: build [(1, 2, 3)], adopt it, set [owner[0] = 42]. *)
Definition notebook_cell (adopt_fn : Heap -> Owner -> option View) : option (list (option Q)) :=
  let '(hp, o) := alloc ∅ [1; 2; 3]%Q in
  v ← adopt_fn hp o;
  hp' ← owner_set hp o 0 42%Q;
  Some (view_get hp' v <$> seq 0 3).

End Adoption.

(* ===================================================================== *)
(** * The invariant-mass kernel of the analysis notebook *)
(* ===================================================================== *)

(** The C++ function declared in the analysis notebook
<<
using Vec_t = const ROOT::VecOps::RVec<float>&;
float compute_mass(Vec_t pt, Vec_t eta, Vec_t phi, Vec_t mass) {
    ROOT::Math::PtEtaPhiMVector p1(pt[0], eta[0], phi[0], mass[0]);
    ROOT::Math::PtEtaPhiMVector p2(pt[1], eta[1], phi[1], mass[1]);
    return (p1 + p2).mass();
}
>>
    on exact real numbers (no [float] rounding). The four-vector operations
    follow ROOT's GenVector classes: [PtEtaPhiM4D] computes its Cartesian
    components and its energy from [(pt, eta, phi, m)]; [p1 + p2] adds the
    Cartesian components and energies ([SetXYZT]) and stores the sum back
    in [PtEtaPhiM4D] coordinates, whose mass is [PxPyPzE4D::M()] of the
    sum, the value [.mass()] returns.  A read past the end of an [RVec]
    (undefined behaviour in C++) yields [None]. *)
Module DimuonMass.
Import Stdlib.Reals.Reals.
Local Open Scope R_scope.

Record PtEtaPhiMVector := { fPt : R; fEta : R; fPhi : R; fM : R }.

Definition Px (v : PtEtaPhiMVector) : R := fPt v * cos (fPhi v).
Definition Py (v : PtEtaPhiMVector) : R := fPt v * sin (fPhi v).
Definition Pz (v : PtEtaPhiMVector) : R := fPt v * sinh (fEta v).
Definition P (v : PtEtaPhiMVector) : R := fPt v * cosh (fEta v).

(** [M2() { return (fM >= 0) ? fM*fM : -fM*fM; }] *)
Definition M2 (v : PtEtaPhiMVector) : R :=
  if Rle_dec 0 (fM v) then fM v * fM v else - (fM v * fM v).

(** [E2() { Scalar e2 = P2() + M2(); return e2 > 0 ? e2 : 0; }] *)
Definition E2 (v : PtEtaPhiMVector) : R :=
  let e2 := P v * P v + M2 v in if Rlt_dec 0 e2 then e2 else 0.

Definition E (v : PtEtaPhiMVector) : R := sqrt (E2 v).

(** Cartesian four-momentum ([PxPyPzE4D]). *)
Record PxPyPzEVector := { fX : R; fY : R; fZ : R; fT : R }.

(** [p1 + p2]. *)
Definition add (v1 v2 : PtEtaPhiMVector) : PxPyPzEVector :=
  {| fX := Px v1 + Px v2; fY := Py v1 + Py v2; fZ := Pz v1 + Pz v2;
     fT := E v1 + E v2 |}.

(** [PxPyPzE4D::M()]:
<<
const Scalar mm = M2();
if (mm >= 0) { return std::sqrt(mm); }
else { GenVector::Throw("PxPyPzE4D::M() - Tachyonic: ..."); return -std::sqrt(-mm); }
>>
    with [M2() = fT*fT - fX*fX - fY*fY - fZ*fZ]; [GenVector::Throw] only
    prints a message unless exceptions are switched on, so a spacelike sum
    yields the negative value [-sqrt(-mm)]. *)
Definition mass (c : PxPyPzEVector) : R :=
  let mm := fT c * fT c - fX c * fX c - fY c * fY c - fZ c * fZ c in
  if Rle_dec 0 mm then sqrt mm else - sqrt (- mm).

Definition compute_mass (pt eta phi m : list R) : option R :=
  pt0 ← pt !! 0%nat; eta0 ← eta !! 0%nat; phi0 ← phi !! 0%nat; m0 ← m !! 0%nat;
  pt1 ← pt !! 1%nat; eta1 ← eta !! 1%nat; phi1 ← phi !! 1%nat; m1 ← m !! 1%nat;
  let p1 := {| fPt := pt0; fEta := eta0; fPhi := phi0; fM := m0 |} in
  let p2 := {| fPt := pt1; fEta := eta1; fPhi := phi1; fM := m1 |} in
  Some (mass (add p1 p2)).

End DimuonMass.

(* ===================================================================== *)
(** * The event selections of the two notebooks *)
(* ===================================================================== *)

(** The RDataFrame chains written in the notebooks, built with the engine
    model above. The string expressions become row predicates (the ones of
    [Scenario] for ["nMuon == 2"] and ["Muon_charge[0] != Muon_charge[1]"]);
    the [Define]d mass expression, a JIT-compiled C++ call, is a parameter.
    A cell whose builder call fails raises, which is the [Err] result. *)
Module Notebooks.
Import Engine.
Local Open Scope string_scope.

(** ["Muon_pt[0] != Muon_pt[1]"] *)
Definition distinct_pt (r : Row) : bool :=
  match row_get "Muon_pt" r with
  | Some (VVec (a :: b :: _)) => negb (Qeq_bool a b)
  | _ => false
  end.

Definition mass_inputs : list string := ["Muon_pt"; "Muon_eta"; "Muon_phi"; "Muon_mass"].

(** [rdataframe_analysis.ipynb]:
<<
df = df.Filter("nMuon == 2", "Events with exactly two muons")\
       .Filter("Muon_charge[0] != Muon_charge[1]", "Muons with opposite charge")\
       .Range(100000)
df = df.Define("Dimuon_mass", "compute_mass(Muon_pt, Muon_eta, Muon_phi, Muon_mass)")
hist = df.Histo1D(("hist", ";m_{#mu#mu} (GeV);N_{Events}", 5000, 2, 200), "Dimuon_mass")
report = df.Report()
>>
    returning the plan and the result handles of [hist] and [report]. *)
Definition dimuon_analysis (src : Source) (dimuon_mass : Row -> Value)
    : result (Plan * nat * nat) BuildError :=
  let p0 := {| source := src; nodes := []; actions := [] |} in
  let '(p1, r1) := Filter p0 [] ["nMuon"] Scenario.two_muons
                     (Some "Events with exactly two muons") in
  match r1 with Err e => Err e | Ok h1 =>
  let '(p2, r2) := Filter p1 h1 ["Muon_charge"] Scenario.opposite_charge
                     (Some "Muons with opposite charge") in
  match r2 with Err e => Err e | Ok h2 =>
  let '(p3, h3) := Range p2 h2 100000 in
  let '(p4, r4) := Define p3 h3 "Dimuon_mass" mass_inputs dimuon_mass in
  match r4 with Err e => Err e | Ok h4 =>
  let '(p5, r5) := Histo1D p4 h4 5000 2 200 ["Dimuon_mass"] Scenario.mass_of in
  match r5 with Err e => Err e | Ok hist =>
  let '(p6, report) := Report p5 h4 in
  Ok (p6, hist, report)
  end end end end.

(** The plan the analysis cell builds on a source that has the columns it
    reads (see [dimuon_analysis_ok]): the two named filters, the Range and
    the Define, with [hist] (result 0) and [report] (result 1) booked on
    the end of the chain. *)
Definition dimuon_plan (src : Source) (dimuon_mass : Row -> Value) : Plan :=
  {| source := src;
     nodes := [{| up := []; kind := FilterNode ["nMuon"] Scenario.two_muons
                                    (Some "Events with exactly two muons") |};
               {| up := [0%nat]; kind := FilterNode ["Muon_charge"] Scenario.opposite_charge
                                    (Some "Muons with opposite charge") |};
               {| up := [0%nat; 1%nat]; kind := RangeNode 100000 |};
               {| up := [0%nat; 1%nat; 2%nat];
                  kind := DefineNode "Dimuon_mass" mass_inputs dimuon_mass |}];
     actions := [{| act_at := [0%nat; 1%nat; 2%nat; 3%nat];
                    act_spec := HistoSpec 5000 2 200 ["Dimuon_mass"] Scenario.mass_of |};
                 {| act_at := [0%nat; 1%nat; 2%nat; 3%nat]; act_spec := ReportSpec |}] |}.

(** [interoperability.ipynb]:
<<
npy = df.Filter('nMuon == 2')\
        .Filter('Muon_pt[0] != Muon_pt[1]')\
        .Define('Dimuon_mass', 'InvariantMass(Muon_pt, Muon_eta, Muon_phi, Muon_mass)')\
        .Range(10000)\
        .AsNumpy(['Dimuon_mass'])
>> *)
Definition interop_asnumpy (src : Source) (dimuon_mass : Row -> Value)
    : result (Plan * nat) BuildError :=
  let p0 := {| source := src; nodes := []; actions := [] |} in
  let '(p1, r1) := Filter p0 [] ["nMuon"] Scenario.two_muons None in
  match r1 with Err e => Err e | Ok h1 =>
  let '(p2, r2) := Filter p1 h1 ["Muon_pt"] distinct_pt None in
  match r2 with Err e => Err e | Ok h2 =>
  let '(p3, r3) := Define p2 h2 "Dimuon_mass" mass_inputs dimuon_mass in
  match r3 with Err e => Err e | Ok h3 =>
  let '(p4, h4) := Range p3 h3 10000 in
  let '(p5, r5) := AsNumpy p4 h4 ["Dimuon_mass"] in
  match r5 with Err e => Err e | Ok npy => Ok (p5, npy) end
  end end end.

(** The muon columns of the CMS NanoAOD files the notebooks read, and a
    small in-memory sample with those columns. *)
Definition nanoaod_columns : list string :=
  ["nMuon"; "Muon_pt"; "Muon_eta"; "Muon_phi"; "Muon_mass"; "Muon_charge"].

Definition sample_events : Source :=
  {| src_name := "Events"; src_columns := nanoaod_columns;
     src_items := RowOk <$> Scenario.rows |}.

End Notebooks.

(* ===================================================================== *)
(** * Proofs about the [largest_sum] kernels *)
(* ===================================================================== *)

Module LargestSumProofs.
Import LargestSum.

Section Generic.
Context {F : Type} (fadd : F -> F -> F) (fgt : F -> F -> bool) (m999 : F).

(** A loop [for (i = 0; i < n; i++)] whose body reads [v[i]]
    computes the left fold of the body over [v]. *)
Lemma seq_fold {A B : Type} (v : list A) (step : B -> A -> B)
    (f : option B -> nat -> option B) :
  (forall r i x, v !! i = Some x -> f (Some r) i = Some (step r x)) ->
  forall l pre r, v = pre ++ l ->
  fold_left f (seq (length pre) (length l)) (Some r)
  = Some (fold_left step l r).
Proof.
  intros Hf l. induction l as [|b l IH]; intros pre r Hv; [done|].
  cbn [length seq fold_left].
  assert (Hb : v !! length pre = Some b).
  { subst v. rewrite lookup_app_r by lia.
    by rewrite Nat.sub_diag. }
  rewrite (Hf r _ b Hb).
  replace (S (length pre)) with (length (pre ++ [b]))
    by (rewrite length_app; cbn; lia).
  apply IH. subst v. by rewrite <-app_assoc.
Qed.

Lemma outer_loop (v1 v2 : list F) size :
  length v2 = size ->
  forall l pre r, v1 = pre ++ l ->
  fold_left (fun acc i1 =>
    fold_left (fun acc i2 =>
      r ← acc; a ← v1 !! i1; b ← v2 !! i2; Some (body fadd fgt r a b))
      (seq 0 size) acc)
    (seq (length pre) (length l)) (Some r)
  = Some (fold_left (fun r e1 =>
            fold_left (fun r e2 => body fadd fgt r e1 e2) v2 r) l r).
Proof.
  intros Hsize. apply seq_fold. intros r i1 a Ha.
  rewrite <-Hsize. change 0 with (length (@nil F)).
  apply (seq_fold v2 (fun r b => body fadd fgt r a b)); [|done].
  intros r' i2 b Hb. cbn [mbind option_bind]. by rewrite Ha, Hb.
Qed.

Lemma largest_sum_cpp_py (v1 v2 : list F) size :
  length v1 = size -> length v2 = size ->
  largest_sum_cpp fadd fgt m999 v1 v2 size
    = Some (largest_sum_py fadd fgt m999 v1 v2).
Proof.
  intros H1 H2. unfold largest_sum_cpp, largest_sum_py.
  subst size. change 0 with (length (@nil F)) at 2.
  apply (outer_loop v1 v2 (length v1) H2 v1 [] m999 eq_refl).
Qed.

Lemma fold_left_ext_pw {A B : Type} (f g : B -> A -> B) (l : list A) (b : B) :
  (forall acc x, f acc x = g acc x) -> fold_left f l b = fold_left g l b.
Proof. intros Hfg. revert b. induction l as [|x l IH]; intros b; [done|]. cbn. by rewrite Hfg. Qed.

(** A fold over [l ≫= g] is the nested fold, and a fold over [g <$> l]
    the fold of the composed step. *)
Lemma fold_left_bind {A B C : Type} (f : C -> B -> C) (g : A -> list B) (l : list A) c :
  fold_left f (l ≫= g) c = fold_left (fun c x => fold_left f (g x) c) l c.
Proof.
  revert c. induction l as [|x l IH]; intros c; [done|].
  rewrite bind_cons, fold_left_app. apply IH.
Qed.

Lemma fold_left_fmap {A B C : Type} (f : C -> B -> C) (g : A -> B) (l : list A) c :
  fold_left f (g <$> l) c = fold_left (fun c x => f c (g x)) l c.
Proof. revert c. induction l as [|x l IH]; intros c; [done|]. apply IH. Qed.

(** The C++ loop nest is the fold of the loop body over [loop_pairs]. *)
Lemma largest_sum_cpp_flat (v1 v2 : list F) size :
  largest_sum_cpp fadd fgt m999 v1 v2 size
  = fold_left (step_at fadd fgt v1 v2) (loop_pairs size) (Some m999).
Proof.
  unfold largest_sum_cpp, loop_pairs. rewrite fold_left_bind.
  apply fold_left_ext_pw. intros acc i1. rewrite fold_left_fmap. done.
Qed.

Lemma elem_of_loop_pairs size i1 i2 :
  (i1, i2) ∈ loop_pairs size <-> i1 < size /\ i2 < size.
Proof.
  unfold loop_pairs. rewrite list_elem_of_bind. split.
  - intros (j1 & Hj & Hj1). apply list_elem_of_fmap in Hj as (j2 & E & Hj2).
    injection E as -> ->. apply elem_of_seq in Hj1, Hj2. lia.
  - intros [H1 H2]. exists i1. split; [|apply elem_of_seq; lia].
    apply list_elem_of_fmap. exists i2. split; [done|]. apply elem_of_seq. lia.
Qed.


Section Order.
(** Of the comparison only what IEEE [>] satisfies, NaN included, is
    assumed: it is irreflexive and transitive. *)
Hypothesis fgt_irrefl : forall x, fgt x x = false.
Hypothesis fgt_trans : forall x y z, fgt x y = true -> fgt y z = true -> fgt x z = true.

(** Folding the loop body over in-bounds index pairs from [r0] yields [r0]
    or a value greater than it; that value is [r0] or one of the sums, and
    no sum of the pairs is greater than it. *)
Lemma fold_step_at_max (v1 v2 : list F) (L : list (nat * nat)) r0 :
  (forall i1 i2, (i1, i2) ∈ L -> is_Some (v1 !! i1) /\ is_Some (v2 !! i2)) ->
  exists r, fold_left (step_at fadd fgt v1 v2) L (Some r0) = Some r /\
    (r = r0 \/ fgt r r0 = true) /\
    (forall i1 i2 a b, (i1, i2) ∈ L -> v1 !! i1 = Some a -> v2 !! i2 = Some b ->
       fgt (fadd a b) r = false) /\
    (r = r0 \/ exists i1 i2 a b, (i1, i2) ∈ L /\ v1 !! i1 = Some a /\ v2 !! i2 = Some b /\
       r = fadd a b).
Proof.
  revert r0. induction L as [|[i1 i2] L IH]; intros r0 Hin.
  - exists r0. split_and!; [done|by left| |by left].
    intros ???? Hx. inversion Hx.
  - destruct (Hin i1 i2) as [[a Ha] [b Hb]]; [apply elem_of_cons; by left|].
    destruct (IH (body fadd fgt r0 a b)) as (r & Hf & Hup & Hmax & Hmem).
    { intros j1 j2 Hj. apply Hin, elem_of_cons. by right. }
    exists r. cbn [fold_left step_at]. rewrite Ha, Hb. cbn. split; [exact Hf|].
    assert (Hr1 : body fadd fgt r0 a b = r0 /\ fgt (fadd a b) r0 = false \/
                  body fadd fgt r0 a b = fadd a b /\ fgt (fadd a b) r0 = true).
    { unfold body. cbv zeta. destruct (fgt (fadd a b) r0); [by right|by left]. }
    split_and!.
    + destruct Hr1 as [[E _]|[E G]]; rewrite E in Hup; [done|].
      right. destruct Hup as [->|G']; [done|]. eapply fgt_trans; eauto.
    + intros j1 j2 a' b' Hj Ha' Hb'. apply elem_of_cons in Hj as [Hj|Hj].
      * injection Hj as -> ->. rewrite Ha in Ha'; injection Ha' as <-.
        rewrite Hb in Hb'; injection Hb' as <-.
        destruct (fgt (fadd a b) r) eqn:G; [exfalso|done].
        destruct Hr1 as [[E G0]|[E G0]]; rewrite E in Hup.
        -- destruct Hup as [->|G1].
           ++ by rewrite G0 in G.
           ++ rewrite (fgt_trans _ _ _ G G1) in G0. discriminate.
        -- destruct Hup as [->|G1].
           ++ by rewrite fgt_irrefl in G.
           ++ pose proof (fgt_trans _ _ _ G G1) as G2. by rewrite fgt_irrefl in G2.
      * by apply (Hmax j1 j2).
    + destruct Hmem as [->|(j1 & j2 & a' & b' & Hj & Ha' & Hb' & ->)].
      * destruct Hr1 as [[E _]|[E _]]; rewrite E; [by left|].
        right. exists i1, i2, a, b. split_and!; [apply elem_of_cons; by left|done|done|done].
      * right. exists j1, j2, a', b'. split_and!; [apply elem_of_cons; by right|done|done|done].
Qed.

Lemma fgt_up_not_down x y : x = y \/ fgt x y = true -> fgt y x = false.
Proof.
  intros [->|G]; [apply fgt_irrefl|].
  destruct (fgt y x) eqn:G'; [|done].
  pose proof (fgt_trans _ _ _ G G') as G2. by rewrite fgt_irrefl in G2.
Qed.
End Order.
End Generic.

Lemma body_Z r a b : body Z.add Z.gtb r a b = Z.max r (a + b).
Proof.
  unfold body. destruct (Z.gtb_spec (a + b) r); lia.
Qed.

Lemma fold_max_fmap (f : Z -> Z) (l : list Z) r :
  fold_left (fun r x => Z.max r (f x)) l r = fold_left Z.max (f <$> l) r.
Proof. revert r. induction l as [|x l IH]; intros r; [done|]. apply IH. Qed.

Lemma largest_sum_py_Z_fold (v1 v2 : list Z) :
  largest_sum_py_Z v1 v2 = sentinel_max_of_sums v1 v2.
Proof.
  unfold largest_sum_py_Z, largest_sum_py, sentinel_max_of_sums, all_sums.
  generalize (-999)%Z. induction v1 as [|a v1 IH]; intros r; [done|].
  cbn [fold_left]. rewrite bind_cons, fold_left_app, <-IH.
  f_equal. rewrite <-fold_max_fmap. clear IH. generalize r.
  induction v2 as [|b v2 IH2]; intros r'; [done|]. cbn. rewrite body_Z. apply IH2.
Qed.

(** A left fold of [Z.max] from [r0] is at least [r0] and every element,
    and is [r0] or one of the elements. *)
Lemma fold_max_spec (l : list Z) r0 :
  let m := fold_left Z.max l r0 in
  (r0 <= m)%Z /\ (forall x, x ∈ l -> x <= m)%Z /\ (m = r0 \/ m ∈ l).
Proof.
  revert r0. induction l as [|x l IH]; intros r0; cbn.
  - split; [lia|]. split; [intros x Hx; inversion Hx|]. by left.
  - destruct (IH (Z.max r0 x)) as (H1 & H2 & H3).
    split; [lia|]. split.
    + intros y Hy. apply elem_of_cons in Hy as [->|Hy]; [lia|]. by apply H2.
    + destruct H3 as [H3|H3].
      * destruct (Z.max_spec r0 x) as [[_ E]|[_ E]].
        -- right. apply elem_of_cons. left. lia.
        -- left. lia.
      * right. apply elem_of_cons. by right.
Qed.

(** Claim C10, as stated, fails: with [v1 = v2 = [-1000]] (all values
    exactly representable in [float]) the only sum is [-2000], yet all
    three kernels return the initial value [-999]. *)
Lemma C10_sentinel_counterexample :
  largest_sum_cpp_Z [-1000]%Z [-1000]%Z 1 = Some (-999)%Z /\
  optimized_largest_sum_Z id [-1000]%Z [-1000]%Z 1 = Some (-999)%Z /\
  largest_sum_py_Z [-1000]%Z [-1000]%Z = (-999)%Z /\
  max_of_sums [-1000]%Z [-1000]%Z = (-2000)%Z.
Proof. repeat split; reflexivity. Qed.

(** Claim C10 (amended).  [F] is the element type ([float], resp.
    [numpy.float32]) with its addition [fadd], its comparison [fgt] and the
    initial value [m999]; of [fgt] only what IEEE [>] satisfies, NaN
    included, is assumed: it is irreflexive and transitive.  On
    equal-length inputs of length [size]:
    - the jitted C++ [largest_sum] and the Python [largest_sum] return the
      same value [r];
    - [r] is [-999] or a sum [v1[i1] + v2[i2]], no sum compares greater
      than [r] and neither does [-999]: [r] is the larger of [-999] and the
      maximum of the sums (so [-999] for empty inputs, and also whenever no
      sum exceeds [-999]);
    - when every element and every sum is finite, [optimized_largest_sum]
      ([-Ofast]) returns, whatever order it visits the pairs in, a value
      that compares equal to [r] (neither is greater than the other). *)
Theorem largest_sum_kernels_agree {F : Type} (fadd : F -> F -> F) (fgt : F -> F -> bool)
    (m999 : F) (finite : F -> bool) (sched : list (nat * nat) -> list (nat * nat))
    (v1 v2 : list F) (size : nat) :
  (forall x, fgt x x = false) ->
  (forall x y z, fgt x y = true -> fgt y z = true -> fgt x z = true) ->
  (forall l, sched l ≡ₚ l) ->
  length v1 = size -> length v2 = size ->
  let r := largest_sum_py fadd fgt m999 v1 v2 in
  largest_sum_cpp fadd fgt m999 v1 v2 size = Some r /\
  (r = m999 \/ exists i1 i2 a b, v1 !! i1 = Some a /\ v2 !! i2 = Some b /\ r = fadd a b) /\
  fgt m999 r = false /\
  (forall i1 i2 a b, v1 !! i1 = Some a -> v2 !! i2 = Some b -> fgt (fadd a b) r = false) /\
  ((forall i1 i2 a b, v1 !! i1 = Some a -> v2 !! i2 = Some b ->
      finite a && finite b && finite (fadd a b) = true) ->
   exists r', optimized_largest_sum fadd fgt m999 finite sched v1 v2 size = Some r' /\
     fgt r r' = false /\ fgt r' r = false).
Proof.
  intros Hirr Htr Hsched H1 H2 r.
  assert (Hcpp : largest_sum_cpp fadd fgt m999 v1 v2 size = Some r)
    by (by apply largest_sum_cpp_py).
  assert (Hrange : forall i1 i2, (i1, i2) ∈ loop_pairs size ->
                     is_Some (v1 !! i1) /\ is_Some (v2 !! i2)).
  { intros i1 i2 Hi. apply elem_of_loop_pairs in Hi.
    split; apply lookup_lt_is_Some_2; lia. }
  assert (Hpairs : forall i1 i2 a b, v1 !! i1 = Some a -> v2 !! i2 = Some b ->
                     (i1, i2) ∈ loop_pairs size).
  { intros i1 i2 a b Ha Hb. apply elem_of_loop_pairs.
    apply lookup_lt_Some in Ha, Hb. lia. }
  destruct (fold_step_at_max fadd fgt Hirr Htr v1 v2 (loop_pairs size) m999 Hrange)
    as (r0 & Hf & Hup & Hmax & Hmem).
  rewrite <-largest_sum_cpp_flat, Hcpp in Hf. injection Hf as <-.
  split_and!; [exact Hcpp| | | |].
  - destruct Hmem as [E|(i1 & i2 & a & b & _ & Ha & Hb & E)]; [by left|right].
    by exists i1, i2, a, b.
  - by apply (fgt_up_not_down fgt Hirr Htr).
  - intros i1 i2 a b Ha Hb. apply (Hmax i1 i2); [by apply (Hpairs i1 i2 a b)|done|done].
  - intros Hfin.
    assert (Hsch : forall i1 i2, (i1, i2) ∈ sched (loop_pairs size) <->
                     (i1, i2) ∈ loop_pairs size).
    { intros i1 i2. rewrite !list_elem_of_In. split; apply Permutation_in.
      - apply Hsched.
      - symmetry. apply Hsched. }
    assert (Hok : forallb (pair_ok fadd finite v1 v2) (loop_pairs size) = true).
    { apply forallb_forall. intros [i1 i2] Hi. apply list_elem_of_In in Hi.
      destruct (Hrange i1 i2 Hi) as [[a Ha] [b Hb]].
      unfold pair_ok. cbn. rewrite Ha, Hb. by apply Hfin with i1 i2. }
    destruct (fold_step_at_max fadd fgt Hirr Htr v1 v2 (sched (loop_pairs size)) m999)
      as (r' & Hf' & Hup' & Hmax' & Hmem').
    { intros i1 i2 Hi. apply Hrange, Hsch, Hi. }
    exists r'. unfold optimized_largest_sum. rewrite Hok. split; [exact Hf'|]. split.
    + destruct Hmem as [->|(i1 & i2 & a & b & Hi & Ha & Hb & ->)].
      * by apply (fgt_up_not_down fgt Hirr Htr).
      * apply (Hmax' i1 i2); [by apply Hsch|done|done].
    + destruct Hmem' as [->|(i1 & i2 & a & b & Hi & Ha & Hb & ->)].
      * by apply (fgt_up_not_down fgt Hirr Htr).
      * apply (Hmax i1 i2); [by apply Hsch|done|done].
Qed.

Lemma largest_sum_kernels_agree_witness :
  largest_sum_cpp_Z [1; -2; 5]%Z [4; 0; -7]%Z 3 = Some 9%Z /\
  exists r', optimized_largest_sum_Z reverse [1; -2; 5]%Z [4; 0; -7]%Z 3 = Some r' /\
    r' = 9%Z.
Proof.
  destruct (largest_sum_kernels_agree Z.add Z.gtb (-999)%Z (fun _ => true) reverse
              [1; -2; 5]%Z [4; 0; -7]%Z 3) as (Hc & _ & _ & _ & Ho).
  - intros x. destruct (Z.gtb_spec x x); lia.
  - intros x y z Hxy Hyz. apply Z.gtb_lt in Hxy, Hyz. apply Z.gtb_lt. lia.
  - intros l. apply reverse_Permutation.
  - reflexivity.
  - reflexivity.
  - destruct (Ho (fun _ _ _ _ _ _ => eq_refl)) as (r' & Hr' & G1 & G2).
    split; [exact Hc|]. exists r'. split; [exact Hr'|].
    change (largest_sum_py Z.add Z.gtb (-999)%Z [1; -2; 5]%Z [4; 0; -7]%Z) with 9%Z
      in G1, G2.
    destruct (Z.gtb_spec 9 r'), (Z.gtb_spec r' 9); lia.
Defined.

End LargestSumProofs.

(* ===================================================================== *)
(** * The single pass computes the batch semantics *)
(* ===================================================================== *)

Module EngineProofs.
Import Engine PassInvariants.

Lemma chain_rows_app (ns : list Node) (h1 h2 : Handle) rows :
  chain_rows ns (h1 ++ h2) rows = chain_rows ns h2 (chain_rows ns h1 rows).
Proof. revert rows. induction h1 as [|i h1 IH]; intros rows; [done|]. apply IH. Qed.

Lemma chain_rows_nil (ns : list Node) (h : Handle) : chain_rows ns h [] = [].
Proof.
  induction h as [|i h IH]; [done|]. cbn.
  destruct (ns !! i) as [[u [] ]|]; cbn; rewrite ?take_nil; apply IH.
Qed.

Lemma run_path_none (ns : list Node) sts (h : Handle) :
  run_path ns sts h None = None.
Proof.
  induction h as [|i h IH]; [done|]. cbn.
  destruct (ns !! i), (sts !! i); cbn; apply IH.
Qed.

(** ** Lists and booleans *)

Lemma forallb_ext_in {A : Type} (f g : A -> bool) (l : list A) :
  (forall x, x ∈ l -> f x = g x) -> forallb f l = forallb g l.
Proof.
  induction l as [|x l IH]; intros H; [done|]. cbn.
  rewrite (H x) by (apply elem_of_cons; by left). f_equal.
  apply IH. intros y Hy. apply H. apply elem_of_cons. by right.
Qed.

Lemma existsb_ext_in {A : Type} (f g : A -> bool) (l : list A) :
  (forall x, x ∈ l -> f x = g x) -> existsb f l = existsb g l.
Proof.
  induction l as [|x l IH]; intros H; [done|]. cbn.
  rewrite (H x) by (apply elem_of_cons; by left). f_equal.
  apply IH. intros y Hy. apply H. apply elem_of_cons. by right.
Qed.

Lemma forallb_false_exists {A : Type} (f : A -> bool) (l : list A) :
  forallb f l = false -> exists x, x ∈ l /\ f x = false.
Proof.
  induction l as [|x l IH]; cbn; [discriminate|].
  destruct (f x) eqn:E; cbn; intros H.
  - destruct (IH H) as (y & Hy & Hf). exists y. split; [|done].
    apply elem_of_cons. by right.
  - exists x. split; [|done]. apply elem_of_cons. by left.
Qed.

Lemma forallb_exists_false {A : Type} (f : A -> bool) (l : list A) x :
  x ∈ l -> f x = false -> forallb f l = false.
Proof.
  intros Hx Hf. destruct (forallb f l) eqn:E; [|done].
  rewrite forallb_forall in E. apply list_elem_of_In in Hx.
  by rewrite (E x Hx) in Hf.
Qed.

Lemma existsb_false_in {A : Type} (f : A -> bool) (l : list A) x :
  existsb f l = false -> x ∈ l -> f x = false.
Proof.
  intros H Hx. destruct (f x) eqn:E; [|done].
  assert (existsb f l = true); [|congruence].
  apply existsb_exists. exists x. split; [by apply list_elem_of_In|done].
Qed.

(** ** Reading a prefix of the source *)

Lemma apply_kind_prefix k (P Q : list Row) :
  exists X, apply_kind k (P ++ Q) = apply_kind k P ++ X.
Proof.
  destruct k; cbn.
  - rewrite List.filter_app. by eexists.
  - rewrite fmap_app. by eexists.
  - rewrite take_app. by eexists.
Qed.

Lemma chain_rows_prefix (ns : list Node) (h : Handle) :
  forall P Q, exists X, chain_rows ns h (P ++ Q) = chain_rows ns h P ++ X.
Proof.
  induction h as [|i h IH]; intros P Q; cbn; [by exists Q|].
  destruct (ns !! i) as [n|].
  - destruct (apply_kind_prefix (kind n) P Q) as [X ->]. apply IH.
  - exists []. by rewrite app_nil_r.
Qed.

Lemma range_done_b_mono (ns : list Node) P Q j :
  range_done_b ns P j = true -> range_done_b ns (P ++ Q) j = true.
Proof.
  unfold range_done_b.
  destruct (ns !! j) as [[u [cols pred name|c cols expr|m]]|]; try discriminate.
  destruct (chain_rows_prefix ns (u ++ [j]) P Q) as [X ->].
  rewrite length_app. intros H%Nat.leb_le. apply Nat.leb_le. lia.
Qed.

Lemma action_live_b_anti (ns : list Node) P Q a :
  action_live_b ns (P ++ Q) a = true -> action_live_b ns P a = true.
Proof.
  unfold action_live_b. rewrite !forallb_forall. intros H j Hj.
  specialize (H j Hj). apply negb_true_iff in H. apply negb_true_iff.
  destruct (range_done_b ns P j) eqn:E; [|done].
  by rewrite (range_done_b_mono ns P Q j E) in H.
Qed.

Lemma node_live_b_anti (ns : list Node) acts P Q i :
  node_live_b ns acts (P ++ Q) i = true -> node_live_b ns acts P i = true.
Proof.
  unfold node_live_b. rewrite !existsb_exists. intros (a & Ha & H).
  apply andb_true_iff in H as [H1 H2]. exists a. split; [done|].
  by rewrite H1, (action_live_b_anti ns P Q a H2).
Qed.

Lemma pass_live_b_anti (ns : list Node) acts P Q :
  pass_live_b ns acts (P ++ Q) = true -> pass_live_b ns acts P = true.
Proof.
  unfold pass_live_b. rewrite !existsb_exists. intros (a & Ha & H).
  exists a. split; [done|]. by apply (action_live_b_anti ns P Q).
Qed.

Lemma node_live_b_of (ns : list Node) acts P a i :
  a ∈ acts -> i ∈ act_at a -> action_live_b ns P a = true ->
  node_live_b ns acts P i = true.
Proof.
  intros Ha Hi Hl. unfold node_live_b. apply existsb_exists.
  exists a. split; [by apply list_elem_of_In|].
  rewrite Hl, andb_true_r. by apply bool_decide_eq_true.
Qed.

Lemma node_live_b_pass (ns : list Node) acts P i :
  node_live_b ns acts P i = true -> pass_live_b ns acts P = true.
Proof.
  unfold node_live_b, pass_live_b. rewrite !existsb_exists.
  intros (a & Ha & H). apply andb_true_iff in H as [_ H]. by exists a.
Qed.

Lemma live_len_le live P R : live_len live P R <= length R.
Proof.
  revert P; induction R as [|r R IH]; intros P; cbn; [lia|].
  destruct (live P); [specialize (IH (P ++ [r])); lia|lia].
Qed.

Lemma live_len_full live P R :
  (forall X Y, live (X ++ Y) = true -> live X = true) ->
  live (P ++ R) = true -> live_len live P R = length R.
Proof.
  intros Hanti. revert P; induction R as [|r R IH]; intros P H; cbn; [done|].
  rewrite (Hanti P (r :: R) H). f_equal. apply IH. by rewrite <-app_assoc.
Qed.

Lemma live_len_snoc live P R r :
  live_len live P (R ++ [r]) =
  if bool_decide (live_len live P R = length R) && live (P ++ R)
  then S (length R) else live_len live P R.
Proof.
  revert P; induction R as [|x R IH]; intros P; cbn.
  - rewrite app_nil_r. by destruct (live P).
  - destruct (live P) eqn:HP.
    + rewrite IH, <-app_assoc. cbn [app].
      destruct (live (P ++ x :: R)); rewrite ?andb_true_r, ?andb_false_r;
        repeat case_bool_decide; lia.
    + case_bool_decide; [lia|done].
Qed.

Lemma live_len_stop live P R :
  live_len live P R < length R -> live (P ++ take (live_len live P R) R) = false.
Proof.
  revert P; induction R as [|r R IH]; intros P; cbn; [lia|].
  destruct (live P) eqn:HP; intros H.
  - specialize (IH (P ++ [r]) ltac:(lia)). rewrite <-app_assoc in IH. exact IH.
  - cbn. by rewrite app_nil_r.
Qed.

Lemma live_len_impl (f g : list Row -> bool) P R :
  (forall X, f X = true -> g X = true) -> live_len f P R <= live_len g P R.
Proof.
  intros Hfg. revert P; induction R as [|r R IH]; intros P; cbn; [lia|].
  destruct (f P) eqn:HP; [rewrite (Hfg P HP); specialize (IH (P ++ [r])); lia|lia].
Qed.

Lemma live_len_take live P R m :
  live_len live P R <= m -> live_len live P (take m R) = live_len live P R.
Proof.
  revert P m; induction R as [|r R IH]; intros P m H.
  - by rewrite take_nil.
  - destruct m as [|m]; cbn in *.
    + destruct (live P); [lia|done].
    + destruct (live P); [|done]. f_equal. apply IH. lia.
Qed.

Lemma node_rows_le (ns : list Node) acts rows i : node_rows ns acts rows i <= length rows.
Proof. apply live_len_le. Qed.

Lemma node_rows_live (ns : list Node) acts P i :
  node_live_b ns acts P i = true -> node_rows ns acts P i = length P.
Proof.
  intros H. unfold node_rows.
  apply live_len_full; [intros X Y; apply node_live_b_anti|exact H].
Qed.

Lemma pass_rows_live (ns : list Node) acts P :
  pass_live_b ns acts P = true -> pass_rows ns acts P = length P.
Proof.
  intros H. unfold pass_rows.
  apply live_len_full; [intros X Y; apply pass_live_b_anti|exact H].
Qed.

Lemma node_rows_snoc (ns : list Node) acts P r i :
  node_rows ns acts (P ++ [r]) i =
  if node_live_b ns acts P i then S (length P) else node_rows ns acts P i.
Proof.
  unfold node_rows. rewrite live_len_snoc. cbn [app].
  destruct (node_live_b ns acts P i) eqn:E.
  - rewrite (live_len_full _ [] P); [|intros X Y; apply node_live_b_anti|exact E].
    rewrite bool_decide_eq_true_2 by done. done.
  - by rewrite andb_false_r.
Qed.

Lemma node_rows_pass (ns : list Node) acts rows i :
  node_rows ns acts rows i <= pass_rows ns acts rows.
Proof. apply live_len_impl. intros X. apply node_live_b_pass. Qed.

Lemma node_rows_take (ns : list Node) acts rows i :
  node_rows ns acts (take (pass_rows ns acts rows) rows) i = node_rows ns acts rows i.
Proof. apply live_len_take, node_rows_pass. Qed.

(** ** Exhausted Range nodes *)

Lemma wf_from_split (ns : list Node) pre h1 j h2 n :
  wf_from ns pre (h1 ++ j :: h2) = true -> ns !! j = Some n -> up n = pre ++ h1.
Proof.
  revert pre. induction h1 as [|i h1 IH]; intros pre Hwf Hn; cbn in Hwf.
  - rewrite Hn in Hwf. apply andb_true_iff in Hwf as [H _].
    apply bool_decide_eq_true in H. by rewrite app_nil_r.
  - destruct (ns !! i) as [m|]; [|discriminate].
    apply andb_true_iff in Hwf as [_ Hwf].
    rewrite (IH _ Hwf Hn). by rewrite <-app_assoc.
Qed.

Lemma wf_handle_up (ns : list Node) h i n k :
  wf_handle ns h = true -> i ∈ h -> ns !! i = Some n -> k ∈ up n -> k ∈ h.
Proof.
  intros Hwf Hi Hn Hk. apply list_elem_of_split in Hi as (h1 & h2 & ->).
  rewrite (wf_from_split ns [] h1 i h2 n Hwf Hn) in Hk.
  apply elem_of_app. by left.
Qed.

(** Once a Range node of a chain is exhausted, no further row of the
    source survives the chain. *)
Lemma chain_rows_stable (ns : list Node) h P Q j :
  wf_handle ns h = true -> j ∈ h -> range_done_b ns P j = true ->
  chain_rows ns h (P ++ Q) = chain_rows ns h P.
Proof.
  intros Hwf Hj Hd. apply list_elem_of_split in Hj as (h1 & h2 & ->).
  unfold range_done_b in Hd.
  destruct (ns !! j) as [[u [cols pred name|c cols expr|m]]|] eqn:Hn; try discriminate.
  pose proof (wf_from_split ns [] h1 j h2 _ Hwf Hn) as Hu. cbn in Hu. subst u.
  rewrite !chain_rows_app in *. cbn [chain_rows] in *. rewrite Hn in *.
  cbn [apply_kind kind] in *.
  apply Nat.leb_le in Hd. rewrite length_take in Hd.
  destruct (chain_rows_prefix ns h1 P Q) as [X ->].
  rewrite take_app_le by lia. done.
Qed.

Lemma range_done_update (ns : list Node) acts sts r j :
  range_done ns sts j = true -> range_done ns (update_nodes ns acts sts r) j = true.
Proof.
  unfold range_done, update_nodes. rewrite list_lookup_imap.
  destruct (ns !! j) as [[u [cols pred name|c cols expr|m]]|] eqn:Hn; try discriminate.
  destruct (sts !! j) as [st|]; [|discriminate]. cbn.
  intros H%Nat.leb_le. apply Nat.leb_le.
  destruct (node_live ns acts sts j); [|cbn; lia].
  cbn [kind]. destruct (run_path ns sts u (Some r)); cbn; [|lia].
  case_match; cbn; lia.
Qed.

Lemma run_path_done (ns : list Node) sts h o j :
  j ∈ h -> range_done ns sts j = true -> run_path ns sts h o = None.
Proof.
  revert o. induction h as [|i h IH]; intros o Hj Hd; [by apply elem_of_nil in Hj|].
  apply elem_of_cons in Hj as [<-|Hj]; cbn [run_path]; [|by apply IH].
  unfold range_done in Hd.
  destruct (ns !! j) as [[u [cols pred name|c cols expr|m]]|]; try discriminate.
  destruct (sts !! j) as [st|]; [|discriminate]. apply Nat.leb_le in Hd.
  cbn [kind node_step]. destruct o as [r|]; cbn; [|apply run_path_none].
  destruct m as [|m]; [apply run_path_none|].
  case_match eqn:E; [apply Nat.leb_le in E; lia|]. apply run_path_none.
Qed.

(** ** One row *)

(** One node, one row: the counters track the batch reading. *)
Lemma node_step_batch k st (B : list Row) o :
  seen st = length B -> passed st = length (apply_kind k B) ->
  apply_kind k (B ++ opt_rows o) = apply_kind k B ++ opt_rows (snd (node_step k st o)) /\
  seen (fst (node_step k st o)) = length (B ++ opt_rows o) /\
  passed (fst (node_step k st o)) = length (apply_kind k (B ++ opt_rows o)).
Proof.
  intros Hs Hp. destruct o as [r|]; cbn [opt_rows node_step];
    [|cbn [fst snd opt_rows]; rewrite !app_nil_r; by split_and!].
  rewrite length_app; cbn [length].
  destruct k as [cols pred name|c cols expr|n]; cbn [apply_kind] in *.
  - rewrite List.filter_app. cbn [List.filter].
    destruct (pred r); cbn; rewrite ?length_app; cbn; split_and!; auto; lia.
  - rewrite fmap_app. cbn. rewrite length_app, length_fmap. cbn.
    rewrite length_fmap in Hp. split_and!; auto; lia.
  - rewrite take_app. rewrite length_take in Hp.
    pose proof (Nat.min_spec n (length B)).
    destruct (Nat.ltb_spec (passed st) n) as [Hlt|Hge]; cbn.
    + replace (n - length B) with (S (n - length B - 1)) by lia. cbn.
      rewrite take_nil. cbn. rewrite length_app, length_take. cbn. split_and!; auto; lia.
    + replace (n - length B) with 0 by lia. cbn.
      rewrite app_nil_r, length_take. split_and!; auto; lia.
Qed.

Lemma run_path_batch (ns : list Node) sts P h :
  length sts = length ns -> states_on ns sts P h ->
  forall pre o, wf_from ns pre h = true ->
  chain_rows ns h (chain_rows ns pre P ++ opt_rows o)
  = chain_rows ns h (chain_rows ns pre P) ++ opt_rows (run_path ns sts h o).
Proof.
  intros Hlen. induction h as [|i h IH]; intros Hok pre o Hwf; [done|].
  cbn [wf_from] in Hwf.
  destruct (ns !! i) as [n|] eqn:Hn; [|discriminate].
  apply andb_true_iff in Hwf as [Hup Hwf]. apply bool_decide_eq_true in Hup.
  destruct (sts !! i) as [st|] eqn:Hst.
  2:{ apply lookup_ge_None in Hst. apply lookup_lt_Some in Hn. lia. }
  destruct (Hok i n st ltac:(apply elem_of_cons; by left) Hn Hst) as [Hs Hp].
  rewrite Hup in Hs, Hp.
  rewrite chain_rows_app in Hp. cbn [chain_rows] in Hp. rewrite Hn in Hp.
  destruct (node_step_batch (kind n) st (chain_rows ns pre P) o Hs Hp) as (E & _ & _).
  cbn [chain_rows run_path]. rewrite Hn, Hst, E.
  replace (apply_kind (kind n) (chain_rows ns pre P))
    with (chain_rows ns (pre ++ [i]) P)
    by (rewrite chain_rows_app; cbn; by rewrite Hn).
  apply IH; [|done]. intros i' n' st' Hi'. apply Hok. apply elem_of_cons. by right.
Qed.

Lemma states_ok_init (ns : list Node) acts :
  states_ok ns acts ((fun _ => node_init) <$> ns) [].
Proof.
  split_and!; [by rewrite length_fmap| |].
  - intros i n st Hn Hst. rewrite list_lookup_fmap, Hn in Hst.
    injection Hst as <-. rewrite take_nil. by rewrite !chain_rows_nil.
  - intros a _. unfold action_live, action_live_b. apply forallb_ext_in.
    intros j _. f_equal. unfold range_done, range_done_b. rewrite list_lookup_fmap.
    destruct (ns !! j) as [[u [cols pred name|c cols expr|m]]|]; cbn; try done.
    by rewrite chain_rows_nil.
Qed.

Lemma live_state (ns : list Node) acts sts P :
  states_ok ns acts sts P ->
  (forall i, node_live ns acts sts i = node_live_b ns acts P i) /\
  existsb (action_live ns sts) acts = pass_live_b ns acts P.
Proof.
  intros (_ & _ & H). split.
  - intros i. unfold node_live, node_live_b. apply existsb_ext_in.
    intros a Ha. by rewrite H.
  - unfold pass_live_b. apply existsb_ext_in. intros a Ha. by apply H.
Qed.

(** The nodes of a live action's chain have run every row read. *)
Lemma states_on_live (ns : list Node) acts sts P a :
  states_ok ns acts sts P -> a ∈ acts -> action_live_b ns P a = true ->
  states_on ns sts P (act_at a).
Proof.
  intros (_ & Hok & _) Ha Hl i n st Hi Hn Hst.
  destruct (Hok i n st Hn Hst) as [Hs Hp].
  rewrite node_rows_live, firstn_all in Hs, Hp by (by eapply node_live_b_of).
  done.
Qed.

Lemma states_on_up (ns : list Node) acts sts P i n :
  (forall a, a ∈ acts -> wf_handle ns (act_at a) = true) ->
  states_ok ns acts sts P -> node_live_b ns acts P i = true -> ns !! i = Some n ->
  states_on ns sts P (up n).
Proof.
  intros Hwf Hok Hl Hn. unfold node_live_b in Hl.
  apply existsb_exists in Hl as (a & Ha & H). apply list_elem_of_In in Ha.
  apply andb_true_iff in H as [Hi Hal]. apply bool_decide_eq_true in Hi.
  intros k m st Hk. apply (states_on_live ns acts sts P a Hok Ha Hal k m st).
  by apply (wf_handle_up ns (act_at a) i n k (Hwf a Ha)).
Qed.

Lemma update_ok (ns : list Node) acts sts P r :
  (forall i n, ns !! i = Some n -> wf_handle ns (up n) = true) ->
  (forall a, a ∈ acts -> wf_handle ns (act_at a) = true) ->
  states_ok ns acts sts P ->
  states_ok ns acts (update_nodes ns acts sts r) (P ++ [r]).
Proof.
  intros Hwfn Hwfa Hok. pose proof Hok as (Hlen & Hst & Hact).
  pose proof (live_state ns acts sts P Hok) as [Hnl _].
  assert (Hlen' : length (update_nodes ns acts sts r) = length ns)
    by (unfold update_nodes; by rewrite length_imap).
  assert (Hnode : forall i n st', ns !! i = Some n ->
      update_nodes ns acts sts r !! i = Some st' ->
      seen st' = length (chain_rows ns (up n)
                           (take (node_rows ns acts (P ++ [r]) i) (P ++ [r]))) /\
      passed st' = length (chain_rows ns (up n ++ [i])
                           (take (node_rows ns acts (P ++ [r]) i) (P ++ [r])))).
  { intros i n st' Hn Hst'. unfold update_nodes in Hst'. rewrite list_lookup_imap in Hst'.
    destruct (sts !! i) as [st|] eqn:Hsti; [|discriminate].
    cbn in Hst'. rewrite Hn, Hnl in Hst'. rewrite node_rows_snoc.
    destruct (Hst i n st Hn Hsti) as [Hs Hp].
    destruct (node_live_b ns acts P i) eqn:Hl.
    - injection Hst' as <-.
      rewrite take_ge by (rewrite length_app; cbn; lia).
      rewrite node_rows_live, firstn_all in Hs, Hp by done.
      pose proof (run_path_batch ns sts P (up n) Hlen
                    (states_on_up ns acts sts P i n Hwfa Hok Hl Hn)
                    [] (Some r) (Hwfn i n Hn)) as E.
      cbn [chain_rows opt_rows] in E.
      rewrite chain_rows_app in Hp. cbn [chain_rows] in Hp. rewrite Hn in Hp.
      destruct (node_step_batch (kind n) st _ (run_path ns sts (up n) (Some r)) Hs Hp)
        as (E2 & Hs' & Hp').
      rewrite chain_rows_app. cbn [chain_rows]. rewrite Hn, E.
      split; [done|]. exact Hp'.
    - injection Hst' as <-. rewrite take_app_le by apply node_rows_le. done. }
  split_and!; [done|exact Hnode|].
  intros a Ha. destruct (action_live_b ns P a) eqn:Hal.
  - unfold action_live, action_live_b. apply forallb_ext_in. intros j Hj. f_equal.
    unfold range_done, range_done_b.
    destruct (ns !! j) as [n|] eqn:Hn; [|done].
    destruct (update_nodes ns acts sts r !! j) as [st'|] eqn:Hst'.
    2:{ apply lookup_ge_None in Hst'. apply lookup_lt_Some in Hn. lia. }
    destruct (Hnode j n st' Hn Hst') as [_ Hp].
    rewrite node_rows_snoc, (node_live_b_of ns acts P a j Ha Hj Hal) in Hp.
    rewrite take_ge in Hp by (rewrite length_app; cbn; lia).
    destruct n as [u [cols pred name|c cols expr|m]]; cbn in *; try done.
    by rewrite Hp.
  - pose proof Hal as Hal'. rewrite <-(Hact a Ha) in Hal'.
    destruct (action_live_b ns (P ++ [r]) a) eqn:E.
    { apply action_live_b_anti in E. congruence. }
    unfold action_live in *. apply forallb_false_exists in Hal' as (j & Hj & Hd).
    apply (forallb_exists_false _ _ j Hj). apply negb_false_iff in Hd.
    apply negb_false_iff. by apply range_done_update.
Qed.

Lemma zip_with_fmap_same {A B C : Type} (f : A -> B -> C) (g : A -> B) (l : list A) :
  zip_with f l (g <$> l) = (fun a => f a (g a)) <$> l.
Proof. induction l as [|a l IH]; [done|]. cbn. by rewrite IH. Qed.

Lemma accs_step (ns : list Node) acts sts accs P r :
  (forall a, a ∈ acts -> wf_handle ns (act_at a) = true) ->
  states_ok ns acts sts P ->
  accs_ok ns acts accs P ->
  accs_ok ns acts
    (zip_with (fun a acc =>
                 match run_path ns sts (act_at a) (Some r) with
                 | Some r' => acc_add (act_spec a) acc r'
                 | None => acc
                 end) acts accs) (P ++ [r]).
Proof.
  intros Hwf Hok ->. unfold accs_ok. rewrite zip_with_fmap_same.
  apply list_fmap_ext. intros k a Hk.
  assert (Ha : a ∈ acts) by (by eapply list_elem_of_lookup_2).
  destruct (action_live_b ns P a) eqn:Hl.
  - pose proof (run_path_batch ns sts P (act_at a) (proj1 Hok)
                  (states_on_live ns acts sts P a Hok Ha Hl) [] (Some r) (Hwf a Ha)) as E.
    cbn [chain_rows opt_rows] in E. rewrite E, fold_left_app.
    by destruct (run_path ns sts (act_at a) (Some r)).
  - destruct Hok as (_ & _ & Hact). pose proof Hl as Hl'. rewrite <-(Hact a Ha) in Hl'.
    unfold action_live in Hl'. apply forallb_false_exists in Hl' as (j & Hj & Hd).
    apply negb_false_iff in Hd.
    rewrite (run_path_done ns sts (act_at a) (Some r) j Hj Hd).
    unfold action_live_b in Hl. apply forallb_false_exists in Hl as (j' & Hj' & Hd').
    apply negb_false_iff in Hd'.
    by rewrite (chain_rows_stable ns (act_at a) P [r] j' (Hwf a Ha) Hj' Hd').
Qed.

Lemma wf_plan_nodes (p : Plan) :
  wf_plan p = true ->
  forall i n, nodes p !! i = Some n -> wf_handle (nodes p) (up n) = true.
Proof.
  intros Hwf i n Hn. apply andb_true_iff in Hwf as [Hwf _].
  apply forallb_forall with (x := n) in Hwf; [done|].
  apply list_elem_of_In. by eapply list_elem_of_lookup_2.
Qed.

Lemma wf_plan_actions (p : Plan) :
  wf_plan p = true ->
  forall a, a ∈ actions p -> wf_handle (nodes p) (act_at a) = true.
Proof.
  intros Hwf a Ha. apply andb_true_iff in Hwf as [_ Hwf].
  apply forallb_forall with (x := a) in Hwf; [done|]. by apply list_elem_of_In.
Qed.

(** The pass over the rows [rows], [P] already read: it reads the rows
    while some action is live, and goes on with [rest] only if it read
    them all. *)
Lemma run_pass_ok (p : Plan) :
  wf_plan p = true ->
  forall rows rest P ps,
  states_ok (nodes p) (actions p) (ps_nodes ps) P ->
  accs_ok (nodes p) (actions p) (ps_accs ps) P ->
  ps_rows ps = length P ->
  let t := live_len (pass_live_b (nodes p) (actions p)) P rows in
  exists ps',
    states_ok (nodes p) (actions p) (ps_nodes ps') (P ++ take t rows) /\
    accs_ok (nodes p) (actions p) (ps_accs ps') (P ++ take t rows) /\
    ps_rows ps' = length P + t /\
    run_pass p ((RowOk <$> rows) ++ rest) ps =
      if t <? length rows then Ok ps' else run_pass p rest ps'.
Proof.
  intros Hwf rows. induction rows as [|r rows IH]; intros rest P ps Hs Ha Hr t.
  - exists ps. subst t. cbn. rewrite !app_nil_r. split_and!; [done|done|lia|done].
  - subst t. cbn [fmap list_fmap app run_pass live_len length].
    rewrite (proj2 (live_state _ _ _ _ Hs)).
    destruct (pass_live_b (nodes p) (actions p) P) eqn:Hl.
    + destruct (IH rest (P ++ [r]) (row_step p ps r)) as (ps' & Hs' & Ha' & Hr' & Hrun).
      * apply update_ok; [by apply wf_plan_nodes|by apply wf_plan_actions|done].
      * apply accs_step; [by apply wf_plan_actions|done|done].
      * cbn. rewrite length_app. cbn. lia.
      * exists ps'. rewrite <-app_assoc in Hs', Ha'. cbn [app take] in Hs', Ha' |- *.
        rewrite length_app in Hr'. cbn in Hr'. split_and!; [done|done|lia|].
        rewrite Hrun. done.
    + exists ps. cbn [take]. rewrite app_nil_r. split_and!; [done|done|lia|done].
Qed.

Lemma pass_result (p : Plan) rows rest :
  wf_plan p = true ->
  exists ps,
    states_ok (nodes p) (actions p) (ps_nodes ps)
      (take (pass_rows (nodes p) (actions p) rows) rows) /\
    accs_ok (nodes p) (actions p) (ps_accs ps)
      (take (pass_rows (nodes p) (actions p) rows) rows) /\
    ps_rows ps = pass_rows (nodes p) (actions p) rows /\
    run_pass p ((RowOk <$> rows) ++ rest) (init_pass p) =
      if pass_rows (nodes p) (actions p) rows <? length rows then Ok ps
      else run_pass p rest ps.
Proof.
  intros Hwf.
  destruct (run_pass_ok p Hwf rows rest [] (init_pass p)) as (ps & Hs & Ha & Hr & Hrun).
  - apply states_ok_init.
  - unfold accs_ok, init_pass. cbn. apply list_fmap_ext. intros.
    by rewrite chain_rows_nil.
  - done.
  - exists ps. cbn [app length] in Hs, Ha, Hr. by split_and!.
Qed.

Lemma pass_final (p : Plan) rows :
  wf_plan p = true ->
  exists ps,
    run_pass p (RowOk <$> rows) (init_pass p) = Ok ps /\
    states_ok (nodes p) (actions p) (ps_nodes ps)
      (take (pass_rows (nodes p) (actions p) rows) rows) /\
    accs_ok (nodes p) (actions p) (ps_accs ps)
      (take (pass_rows (nodes p) (actions p) rows) rows) /\
    ps_rows ps = pass_rows (nodes p) (actions p) rows.
Proof.
  intros Hwf. destruct (pass_result p rows [] Hwf) as (ps & Hs & Ha & Hr & Hrun).
  exists ps. rewrite app_nil_r in Hrun. split_and!; [|done|done|done].
  rewrite Hrun. by destruct (_ <? _).
Qed.

Lemma fold_histo nbins lo hi cols proj (S : list Row) h :
  fold_left (acc_add (HistoSpec nbins lo hi cols proj)) S (HistoAcc h)
  = HistoAcc (fold_left (fill lo hi) (proj <$> S) h).
Proof. revert h. induction S as [|r S IH]; intros h; [done|]. apply IH. Qed.

Lemma fold_numpy (cols : list string) (S : list Row) (X : string -> list (option Value)) :
  fold_left (acc_add (NumpySpec cols)) S (NumpyAcc (X <$> cols))
  = NumpyAcc ((fun c => X c ++ (row_get c <$> S)) <$> cols).
Proof.
  revert X. induction S as [|r S IH]; intros X.
  - cbn. f_equal. apply list_fmap_ext. intros. by rewrite app_nil_r.
  - cbn [fold_left]. cbn [acc_add]. rewrite zip_with_fmap_same.
    rewrite (IH (fun c => X c ++ [row_get c r])).
    f_equal. apply list_fmap_ext. intros. by rewrite <-app_assoc.
Qed.

Lemma fold_report (S : list Row) :
  fold_left (acc_add ReportSpec) S ReportAcc = ReportAcc.
Proof. induction S; [done|]. apply IHS. Qed.

(** Once the pass stops, no further row would have reached any action. *)
Lemma pass_rows_chain (ns : list Node) acts rows a :
  (forall a, a ∈ acts -> wf_handle ns (act_at a) = true) -> a ∈ acts ->
  chain_rows ns (act_at a) (take (pass_rows ns acts rows) rows)
  = chain_rows ns (act_at a) rows.
Proof.
  intros Hwf Ha.
  destruct (decide (pass_rows ns acts rows < length rows)) as [Hlt|Hge].
  - pose proof (live_len_stop _ [] rows Hlt) as Hstop. cbn [app] in Hstop.
    fold (pass_rows ns acts rows) in Hstop. unfold pass_live_b in Hstop.
    pose proof (existsb_false_in _ _ a Hstop Ha) as Hd.
    unfold action_live_b in Hd. apply forallb_false_exists in Hd as (j & Hj & Hd).
    apply negb_false_iff in Hd.
    pose proof (chain_rows_stable ns (act_at a) _ (drop (pass_rows ns acts rows) rows)
                  j (Hwf a Ha) Hj Hd) as E.
    rewrite firstn_skipn in E. by rewrite E.
  - by rewrite take_ge by lia.
Qed.

Lemma report_of_batch (ns : list Node) acts sts rows (h : Handle) :
  states_ok ns acts sts (take (pass_rows ns acts rows) rows) ->
  report_of ns sts h (pass_rows ns acts rows) = batch_report ns acts rows h.
Proof.
  intros (Hlen & Hok & _). unfold report_of, batch_report, cut_entries. f_equal.
  apply list_bind_ext; [|done]. intros i.
  destruct (ns !! i) as [n|] eqn:Hn; [|done].
  destruct (sts !! i) as [st|] eqn:Hst.
  2:{ apply lookup_ge_None in Hst. apply lookup_lt_Some in Hn. lia. }
  destruct (Hok i n st Hn Hst) as [Hs Hp].
  rewrite node_rows_take, take_take, Nat.min_l in Hs, Hp by apply node_rows_pass.
  destruct n as [u [cols pred [nm|]|c cols expr|m]]; cbn in *; try done.
  by rewrite Hs, Hp.
Qed.

(** Refinement: on a source whose rows all read fine, the single pass
    produces, for every booked action, the value of the batch semantics. *)
Lemma evaluate_batch (p : Plan) rows :
  wf_plan p = true ->
  src_items (source p) = RowOk <$> rows ->
  evaluate p = Ok (batch_value (nodes p) (actions p) rows <$> actions p).
Proof.
  intros Hwf Hsrc. unfold evaluate. rewrite Hsrc.
  destruct (pass_final p rows Hwf) as (ps & Hrun & Hs & Ha & Hr).
  rewrite Hrun. f_equal. rewrite Ha, zip_with_fmap_same.
  apply list_fmap_ext. intros k a Hk.
  assert (Hin : a ∈ actions p) by (by eapply list_elem_of_lookup_2).
  unfold finish_action, batch_value.
  rewrite (pass_rows_chain _ _ rows a (wf_plan_actions p Hwf) Hin).
  destruct a as [h [nbins lo hi cols proj|cols|]]; cbn [act_spec act_at acc_init].
  - by rewrite fold_histo.
  - rewrite fold_numpy. done.
  - rewrite Hr. f_equal. by apply report_of_batch.
Qed.

(** A read failure is raised when the pass reaches it, i.e. while some
    action is still live. *)
Lemma run_pass_reads_failure (p : Plan) rows rest :
  wf_plan p = true -> pass_live_b (nodes p) (actions p) rows = true ->
  run_pass p ((RowOk <$> rows) ++ ReadFailure :: rest) (init_pass p) = Err SourceReadError.
Proof.
  intros Hwf Hl. destruct (pass_result p rows (ReadFailure :: rest) Hwf) as (ps & Hs & _ & _ & Hrun).
  pose proof (pass_rows_live _ _ _ Hl) as Ht.
  rewrite Hrun, Ht, Nat.ltb_irrefl. cbn [run_pass].
  rewrite (proj2 (live_state _ _ _ _ Hs)), Ht, firstn_all, Hl. done.
Qed.

Lemma run_pass_length (p : Plan) items ps ps' :
  length (ps_accs ps) = length (actions p) ->
  run_pass p items ps = Ok ps' ->
  length (ps_accs ps') = length (actions p).
Proof.
  revert ps. induction items as [|it items IH]; intros ps Hl Hrun; cbn in Hrun.
  - by injection Hrun as <-.
  - destruct (existsb _ _); [|by injection Hrun as <-].
    destruct it as [r|]; [|discriminate].
    apply (IH (row_step p ps r)); [|done]. cbn. rewrite length_zip_with. lia.
Qed.

Lemma evaluate_length (p : Plan) vs :
  evaluate p = Ok vs -> length vs = length (actions p).
Proof.
  unfold evaluate.
  destruct (run_pass p (src_items (source p)) (init_pass p)) as [ps|e] eqn:Hrun;
    [|discriminate].
  intros [= <-]. apply run_pass_length in Hrun; [|by cbn; rewrite length_fmap].
  rewrite length_zip_with. lia.
Qed.

Lemma read_all_done (x : Exec) vs ks :
  status x = Done vs -> read_all x ks = (x, lookup_value vs <$> ks).
Proof.
  intros Hx. induction ks as [|k ks IH]; [done|].
  cbn. unfold GetValue. rewrite Hx, IH. done.
Qed.

Lemma read_all_failed (x : Exec) e ks :
  status x = Failed e -> read_all x ks = (x, (fun _ => Err (EvalFailed e)) <$> ks).
Proof.
  intros Hx. induction ks as [|k ks IH]; [done|].
  cbn. unfold GetValue. rewrite Hx, IH. done.
Qed.

(** Reads from a fresh executor: one pass on the first read, then every
    read is answered from its outcome. *)
Lemma read_all_start (p : Plan) k ks :
  read_all (start p) (k :: ks)
  = match evaluate p with
    | Ok vs => ({| plan := p; status := Done vs; passes := 1 |}, lookup_value vs <$> k :: ks)
    | Err e => ({| plan := p; status := Failed e; passes := 1 |},
                (fun _ => Err (EvalFailed e)) <$> k :: ks)
    end.
Proof.
  cbn [read_all]. unfold GetValue. cbn [status start plan passes].
  destruct (evaluate p) as [vs|e].
  - by rewrite (read_all_done _ vs ks).
  - by rewrite (read_all_failed _ e ks).
Qed.

(** Claim C1: booking only extends the plan and a fresh executor has run
    no pass; the first read of any booked result runs exactly one pass,
    which fills every booked result, and however many of the results are
    read afterwards (in any order, any number of times) the source has been
    iterated exactly once and every read is answered from that pass. *)
Theorem lazy_single_pass (p : Plan) (ks : list nat) :
  ks <> [] ->
  Forall (fun k => k < length (actions p)) ks ->
  passes (start p) = 0 /\
  status (start p) = Pending /\
  passes (read_all (start p) ks).1 = 1 /\
  match evaluate p with
  | Ok vs =>
      status (read_all (start p) ks).1 = Done vs /\
      length vs = length (actions p) /\
      Forall2 (fun k r => exists v, vs !! k = Some v /\ r = Ok v)
        ks (read_all (start p) ks).2
  | Err e =>
      status (read_all (start p) ks).1 = Failed e /\
      Forall (fun r => r = Err (EvalFailed e)) (read_all (start p) ks).2
  end.
Proof.
  intros Hne Hks. destruct ks as [|k ks]; [done|].
  rewrite read_all_start. split_and!; [done|done| |].
  { by destruct (evaluate p). }
  destruct (evaluate p) as [vs|e] eqn:He; cbn [fst snd status].
  - apply evaluate_length in He as Hlen. split_and!; [done|done|].
    apply Forall2_fmap_r. apply Forall_Forall2_diag.
    eapply Forall_impl; [exact Hks|]. intros j Hj.
    cbn in Hj |- *. unfold lookup_value. destruct (vs !! j) as [v|] eqn:Hv; [by exists v|].
    apply lookup_ge_None in Hv. lia.
  - split; [done|]. apply Forall_fmap, Forall_forall. by intros.
Qed.

Lemma lazy_single_pass_witness :
  passes (read_all (start (Scenario.analysis Scenario.events)) [2; 0; 1; 3; 0]).1 = 1.
Proof.
  destruct (lazy_single_pass (Scenario.analysis Scenario.events) [2; 0; 1; 3; 0])
    as (_ & _ & H & _).
  - discriminate.
  - repeat constructor; vm_compute; lia.
  - exact H.
Defined.

(** Claim C3: when the row sequence raises during the pass, that is at a
    read the pass makes because some booked action still takes rows (no
    Range bound has ended the pass before it), evaluation fails with
    [SourceReadError], the executor records the failure and every read of
    every booked result returns that error, so no result of the aborted
    pass is observable; in general the reads of booked results either all
    return values or all return the same error. *)
Theorem read_failure_atomic (p : Plan) (ks : list nat) rows rest :
  Forall (fun k => k < length (actions p)) ks ->
  (wf_plan p = true ->
   src_items (source p) = (RowOk <$> rows) ++ ReadFailure :: rest ->
   pass_live_b (nodes p) (actions p) rows = true ->
     evaluate p = Err SourceReadError /\
     (ks <> [] -> status (read_all (start p) ks).1 = Failed SourceReadError) /\
     Forall (fun r => r = Err (EvalFailed SourceReadError)) (read_all (start p) ks).2) /\
  (Forall (fun r => exists v, r = Ok v) (read_all (start p) ks).2 \/
   Forall (fun r => r = Err (EvalFailed SourceReadError)) (read_all (start p) ks).2).
Proof.
  intros Hks.
  assert (Hfail : wf_plan p = true ->
                  src_items (source p) = (RowOk <$> rows) ++ ReadFailure :: rest ->
                  pass_live_b (nodes p) (actions p) rows = true ->
                  evaluate p = Err SourceReadError).
  { intros Hwf Hsrc Hl. unfold evaluate. rewrite Hsrc.
    by rewrite run_pass_reads_failure. }
  destruct ks as [|k ks].
  { split; [|left; constructor]. intros Hwf Hsrc Hl. split; [|done]. by apply Hfail. }
  rewrite read_all_start.
  split.
  - intros Hwf Hsrc Hl. rewrite (Hfail Hwf Hsrc Hl). cbn [fst snd status].
    split_and!; [done|done|]. apply Forall_fmap, Forall_forall. by intros.
  - destruct (evaluate p) as [vs|e] eqn:He; cbn [snd].
    + left. apply evaluate_length in He as Hlen.
      apply Forall_fmap. eapply Forall_impl; [exact Hks|]. intros j Hj.
      cbn in Hj |- *. unfold lookup_value. destruct (vs !! j) as [v|] eqn:Hv; [by exists v|].
      apply lookup_ge_None in Hv. cbn in Hj. lia.
    + right. destruct e. apply Forall_fmap, Forall_forall. by intros.
Qed.

Lemma read_failure_atomic_witness :
  Forall (fun r => r = Err (EvalFailed SourceReadError))
    (read_all (start (Scenario.analysis Scenario.events_broken)) [1; 0]).2.
Proof.
  destruct (read_failure_atomic (Scenario.analysis Scenario.events_broken) [1; 0]
              [Scenario.r1] [RowOk Scenario.r3])
    as ((_ & _ & H) & _).
  - repeat constructor; vm_compute; lia.
  - vm_compute. reflexivity.
  - reflexivity.
  - apply (bool_decide_eq_true_1 _). vm_compute. reflexivity.
  - exact H.
Defined.

Lemma filter_length_le' (f : Row -> bool) (l : list Row) :
  length (List.filter f l) <= length l.
Proof. induction l as [|r l IH]; [done|]. cbn. destruct (f r); cbn; lia. Qed.

Lemma evaluate_lookup (p : Plan) rows k act :
  wf_plan p = true ->
  src_items (source p) = RowOk <$> rows ->
  actions p !! k = Some act ->
  exists vs, evaluate p = Ok vs /\ vs !! k = Some (batch_value (nodes p) (actions p) rows act).
Proof.
  intros Hwf Hsrc Hk. exists (batch_value (nodes p) (actions p) rows <$> actions p).
  split; [by apply evaluate_batch|]. by rewrite list_lookup_fmap, Hk.
Qed.

(** Every read of result [k], at any position of any read sequence,
    returns the value of the single pass. *)
Lemma read_all_value (p : Plan) vs k v ks j :
  evaluate p = Ok vs -> vs !! k = Some v -> ks !! j = Some k ->
  (read_all (start p) ks).2 !! j = Some (Ok v).
Proof.
  intros He Hv Hj. destruct ks as [|k0 ks]; [done|].
  rewrite read_all_start, He. cbn [snd].
  rewrite list_lookup_fmap, Hj. cbn. unfold lookup_value. by rewrite Hv.
Qed.

(** A report booked on a chain with no Range node keeps its chain live for
    the whole pass: every node of the chain runs every row of the source,
    and the pass reads them all. *)
Lemma action_live_b_norange (ns : list Node) P a :
  (forall j u m, j ∈ act_at a -> ns !! j <> Some {| up := u; kind := RangeNode m |}) ->
  action_live_b ns P a = true.
Proof.
  intros Hnr. unfold action_live_b. apply forallb_forall. intros j Hj.
  apply list_elem_of_In in Hj. apply negb_true_iff. unfold range_done_b.
  destruct (ns !! j) as [[u [cols pred name|c cols expr|m]]|] eqn:Hn; try done.
  by destruct (Hnr j u m Hj).
Qed.

Lemma rows_norange (ns : list Node) acts rows a :
  a ∈ acts ->
  (forall j u m, j ∈ act_at a -> ns !! j <> Some {| up := u; kind := RangeNode m |}) ->
  pass_rows ns acts rows = length rows /\
  forall i, i ∈ act_at a -> node_rows ns acts rows i = length rows.
Proof.
  intros Ha Hnr. split.
  - apply pass_rows_live. unfold pass_live_b. apply existsb_exists.
    exists a. split; [by apply list_elem_of_In|]. by apply action_live_b_norange.
  - intros i Hi. apply node_rows_live. eapply node_live_b_of; [done|done|].
    by apply action_live_b_norange.
Qed.

(** Claim C2: after the pass, the report booked on chain [h] lists, for
    every named Filter node of [h] in declaration order, its name, the
    rows it passed and the rows that reached it (the rows surviving its
    upstream chain), counted over the rows the filter ran: the first
    [node_rows] rows of the source, those read while some action below the
    filter still took rows (a filter's counters are shared by every branch
    through it, and a Range bound stops the branches behind it).  The row
    count at the source root is the number of rows the pass read,
    [pass_rows]: the whole source, unless the pass stopped because every
    booked action's chain had reached a Range bound.  The cumulative
    efficiency of an entry is its pass count over that root count.  When
    the report's own chain has no Range node, every filter of it ran the
    whole source and the root count is the number of rows of the source.
    Every read of the report, whatever the order of reads, returns this
    same report. *)
Theorem cutflow_report_counts (p : Plan) rows k (h : Handle) :
  wf_plan p = true ->
  src_items (source p) = RowOk <$> rows ->
  actions p !! k = Some {| act_at := h; act_spec := ReportSpec |} ->
  exists vs rep,
    evaluate p = Ok vs /\ vs !! k = Some (ReportV rep) /\
    entries rep =
      h ≫= (fun i => match nodes p !! i with
                     | Some {| up := u; kind := FilterNode _ _ (Some nm) |} =>
                         let P := take (node_rows (nodes p) (actions p) rows i) rows in
                         [{| ci_name := nm;
                             ci_pass := length (chain_rows (nodes p) (u ++ [i]) P);
                             ci_all := length (chain_rows (nodes p) u P) |}]
                     | _ => []
                     end) /\
    root_total rep = pass_rows (nodes p) (actions p) rows /\
    (forall i, node_rows (nodes p) (actions p) rows i <= root_total rep) /\
    root_total rep <= length rows /\
    (root_total rep = length rows \/
     pass_live_b (nodes p) (actions p) (take (root_total rep) rows) = false) /\
    ((forall j u m, j ∈ h -> nodes p !! j <> Some {| up := u; kind := RangeNode m |}) ->
       root_total rep = length rows /\
       forall i, i ∈ h -> node_rows (nodes p) (actions p) rows i = length rows) /\
    (root_total rep <> 0 -> forall e, e ∈ entries rep ->
       cumulative_efficiency rep e
       = (inject_Z (Z.of_nat (ci_pass e)) / inject_Z (Z.of_nat (root_total rep)))%Q) /\
    (forall ks j, ks !! j = Some k -> (read_all (start p) ks).2 !! j = Some (Ok (ReportV rep))).
Proof.
  intros Hwf Hsrc Hk.
  destruct (evaluate_lookup p rows k _ Hwf Hsrc Hk) as (vs & He & Hv).
  exists vs, (batch_report (nodes p) (actions p) rows h). cbn in Hv.
  split_and!; [done|done|done|done| | | | | |].
  - intros i. apply node_rows_pass.
  - apply live_len_le.
  - cbn [root_total batch_report].
    destruct (decide (pass_rows (nodes p) (actions p) rows < length rows)) as [Hlt|Hge].
    + right. apply (live_len_stop _ [] rows Hlt).
    + left. pose proof (live_len_le (pass_live_b (nodes p) (actions p)) [] rows).
      unfold pass_rows in *. lia.
  - intros Hnr. apply (rows_norange (nodes p) (actions p) rows
                         {| act_at := h; act_spec := ReportSpec |}); [|done].
    by eapply list_elem_of_lookup_2.
  - intros Hne e _. unfold cumulative_efficiency.
    destruct (Nat.eqb_spec (root_total (batch_report (nodes p) (actions p) rows h)) 0)
      as [E|_]; done.
  - intros ks j Hj. by eapply read_all_value.
Qed.

Lemma cutflow_report_counts_witness :
  (exists vs rep, evaluate (Scenario.analysis Scenario.events) = Ok vs /\
     vs !! 1 = Some (ReportV rep) /\ root_total rep = 4) /\
  (exists vs rep, evaluate (Scenario.analysis_ranged Scenario.events) = Ok vs /\
     vs !! 1 = Some (ReportV rep) /\ root_total rep = 1).
Proof.
  split.
  - destruct (cutflow_report_counts (Scenario.analysis Scenario.events) Scenario.rows 1
                [0; 1; 2; 3]) as (vs & rep & He & Hv & _ & Hr & _).
    + vm_compute. reflexivity.
    + reflexivity.
    + vm_compute. reflexivity.
    + exists vs, rep. split_and!; [exact He|exact Hv|]. rewrite Hr. vm_compute. reflexivity.
  - destruct (cutflow_report_counts (Scenario.analysis_ranged Scenario.events) Scenario.rows 1
                [0; 1; 2; 3]) as (vs & rep & He & Hv & _ & Hr & _).
    + vm_compute. reflexivity.
    + reflexivity.
    + vm_compute. reflexivity.
    + exists vs, rep. split_and!; [exact He|exact Hv|]. rewrite Hr. vm_compute. reflexivity.
Defined.

(** Claim C9: every entry of an evaluated report has [passCount <=
    totalSeenAtThisNode]; its efficiency is [passCount / totalSeenAtThisNode],
    and [0] (no division error) when nothing reached the filter, so it lies
    in [[0, 1]]. *)
Theorem report_efficiency_total (p : Plan) rows k (h : Handle) :
  wf_plan p = true ->
  src_items (source p) = RowOk <$> rows ->
  actions p !! k = Some {| act_at := h; act_spec := ReportSpec |} ->
  exists vs rep,
    evaluate p = Ok vs /\ vs !! k = Some (ReportV rep) /\
    forall e, e ∈ entries rep ->
      ci_pass e <= ci_all e /\
      (ci_all e = 0 -> efficiency e = 0%Q) /\
      (ci_all e <> 0 ->
         efficiency e = (inject_Z (Z.of_nat (ci_pass e)) / inject_Z (Z.of_nat (ci_all e)))%Q) /\
      (0 <= efficiency e <= 1)%Q.
Proof.
  intros Hwf Hsrc Hk.
  destruct (evaluate_lookup p rows k _ Hwf Hsrc Hk) as (vs & He & Hv).
  exists vs, (batch_report (nodes p) (actions p) rows h). cbn in Hv.
  split_and!; [done|done|]. intros e He'.
  assert (Hle : ci_pass e <= ci_all e).
  { unfold batch_report, cut_entries in He'. cbn [entries] in He'.
    apply list_elem_of_bind in He' as (i & Hin & _).
    destruct (nodes p !! i) as [[u [cols pred [nm|]|c cols expr|m]]|] eqn:Hn;
      try by apply elem_of_nil in Hin.
    apply elem_of_cons in Hin as [->|Hin]; [|by apply elem_of_nil in Hin].
    cbn. rewrite chain_rows_app. cbn. rewrite Hn. cbn. apply filter_length_le'. }
  unfold efficiency.
  destruct (Nat.eqb_spec (ci_all e) 0) as [E|E].
  - split_and!; try done; try lia; unfold Qle; cbn; lia.
  - split_and!; try done.
    + apply Qle_shift_div_l;
        [change 0%Q with (inject_Z 0); rewrite <-Zlt_Qlt; lia|].
      rewrite Qmult_0_l. change 0%Q with (inject_Z 0). rewrite <-Zle_Qle. lia.
    + apply Qle_shift_div_r;
        [change 0%Q with (inject_Z 0); rewrite <-Zlt_Qlt; lia|].
      rewrite Qmult_1_l, <-Zle_Qle. lia.
Qed.

Lemma report_efficiency_total_witness :
  exists vs rep, evaluate (Scenario.analysis Scenario.events) = Ok vs /\
    vs !! 1 = Some (ReportV rep).
Proof.
  destruct (report_efficiency_total (Scenario.analysis Scenario.events) Scenario.rows 1
              [0; 1; 2; 3]) as (vs & rep & He & Hv & _).
  - vm_compute. reflexivity.
  - reflexivity.
  - vm_compute. reflexivity.
  - exists vs, rep. split; [exact He|exact Hv].
Defined.

Lemma wf_from_ext (ns1 ns2 : list Node) :
  (forall j, up <$> ns1 !! j = up <$> ns2 !! j) ->
  forall h pre, wf_from ns1 pre h = wf_from ns2 pre h.
Proof.
  intros Hup h. induction h as [|j h IH]; intros pre; [done|]. cbn.
  specialize (Hup j).
  destruct (ns1 !! j) as [n1|], (ns2 !! j) as [n2|]; try discriminate; [|done].
  injection Hup as Hup. rewrite Hup, IH. done.
Qed.

Lemma forallb_alter {A : Type} (f : A -> bool) (g : A -> A) (l : list A) i :
  (forall x, f (g x) = f x) -> forallb f (alter g i l) = forallb f l.
Proof.
  intros Hfg. revert i. induction l as [|x l IH]; intros [|i]; cbn; try done.
  - by rewrite Hfg.
  - by rewrite IH.
Qed.

Lemma forallb_ext_fun {A : Type} (f g : A -> bool) (l : list A) :
  (forall x, f x = g x) -> forallb f l = forallb g l.
Proof. intros Hfg. induction l as [|x l IH]; cbn; [done|]. by rewrite Hfg, IH. Qed.

Lemma set_range_up (p : Plan) i m j :
  up <$> nodes (set_range p i m) !! j = up <$> nodes p !! j.
Proof.
  cbn. destruct (decide (i = j)) as [->|Hne].
  - rewrite list_lookup_alter. destruct (nodes p !! j); by case_decide.
  - by rewrite list_lookup_alter_ne.
Qed.

Lemma wf_plan_set_range (p : Plan) i m :
  wf_plan (set_range p i m) = wf_plan p.
Proof.
  unfold wf_plan, wf_handle.
  assert (E : forall h, wf_from (nodes (set_range p i m)) [] h = wf_from (nodes p) [] h)
    by (intros h; apply wf_from_ext, set_range_up).
  f_equal.
  - cbn [nodes set_range]. rewrite forallb_alter by done.
    apply forallb_ext_fun. intros n. apply E.
  - cbn [actions set_range]. apply forallb_ext_fun. intros a. apply E.
Qed.

Lemma chain_rows_ext (ns1 ns2 : list Node) (h : Handle) rows :
  (forall j, j ∈ h -> ns1 !! j = ns2 !! j) ->
  chain_rows ns1 h rows = chain_rows ns2 h rows.
Proof.
  revert rows. induction h as [|j h IH]; intros rows Hext; [done|]. cbn.
  rewrite (Hext j) by (apply elem_of_cons; by left).
  apply IH. intros x Hx. apply Hext, elem_of_cons. by right.
Qed.

(** In a well-formed chain, each node was appended to a prefix of it. *)
Lemma wf_from_up (ns : list Node) :
  forall h pre, wf_from ns pre h = true ->
  forall j n x, j ∈ h -> ns !! j = Some n -> x ∈ up n -> x ∈ pre ++ h.
Proof.
  intros h. induction h as [|j0 h IH]; intros pre Hwf j n x Hj Hn Hx.
  - by apply elem_of_nil in Hj.
  - cbn in Hwf. destruct (ns !! j0) as [n0|] eqn:Hn0; [|discriminate].
    apply andb_true_iff in Hwf as [Hup Hwf]. apply bool_decide_eq_true in Hup.
    apply elem_of_cons in Hj as [->|Hj].
    + rewrite Hn in Hn0. injection Hn0 as <-. rewrite Hup in Hx.
      apply elem_of_app. by left.
    + specialize (IH (pre ++ [j0]) Hwf j n x Hj Hn Hx).
      by rewrite <-app_assoc in IH.
Qed.

Lemma bind_ext_in {A B : Type} (f g : A -> list B) (l : list A) :
  (forall x, x ∈ l -> f x = g x) -> l ≫= f = l ≫= g.
Proof.
  induction l as [|x l IH]; intros Hfg; [done|]. rewrite !bind_cons.
  rewrite (Hfg x) by (apply elem_of_cons; by left).
  f_equal. apply IH. intros y Hy. apply Hfg, elem_of_cons. by right.
Qed.

Lemma batch_value_indep (ns1 ns2 : list Node) acts1 acts2 rows (a : Action) i :
  (forall j, j <> i -> ns1 !! j = ns2 !! j) ->
  wf_handle ns2 (act_at a) = true ->
  i ∉ act_at a ->
  (act_spec a <> ReportSpec \/
   (pass_rows ns1 acts1 rows = pass_rows ns2 acts2 rows /\
    forall j, j ∈ act_at a -> node_rows ns1 acts1 rows j = node_rows ns2 acts2 rows j)) ->
  batch_value ns1 acts1 rows a = batch_value ns2 acts2 rows a.
Proof.
  intros Hext Hwf Hi Hrep.
  assert (Hch : forall h P, (forall j, j ∈ h -> j <> i) ->
                chain_rows ns1 h P = chain_rows ns2 h P).
  { intros h P Hh. apply chain_rows_ext. intros j Hj. by apply Hext, Hh. }
  assert (Hin : forall j, j ∈ act_at a -> j <> i) by (intros j Hj ->; done).
  unfold batch_value. rewrite (Hch (act_at a) rows Hin).
  destruct (act_spec a); try done.
  destruct Hrep as [Hrep|[Hpass Hnode]]; [done|].
  f_equal. unfold batch_report, cut_entries. rewrite Hpass. f_equal.
  apply bind_ext_in. intros j Hj.
  rewrite (Hext j (Hin j Hj)), (Hnode j Hj).
  destruct (ns2 !! j) as [n|] eqn:Hn; [|done].
  destruct n as [u [cols pred [nm|]|c cols expr|m]]; try done.
  assert (Hu : forall x, x ∈ u -> x <> i).
  { intros x Hx. apply Hin.
    by eapply (wf_from_up ns2 (act_at a) [] Hwf j _ x Hj Hn). }
  rewrite (Hch u _ Hu), (Hch (u ++ [j])); [done|].
  intros x Hx. apply elem_of_app in Hx as [Hx|Hx]; [by apply Hu|].
  apply list_elem_of_singleton in Hx as ->. by apply Hin.
Qed.

(** Claim C4: the rows leaving a Range(n) node number exactly
    [min n (rows surviving the chain upstream of it)].  In the pass, every
    histogram and array export receives the rows of the batch reading of
    its chain over the whole source, where the Range node keeps the first
    [n] rows reaching it; the node's running counter ends at [min n] of the
    rows that reached it while it ran, so at most [n].  The results of the
    actions whose chain does not go through that node are the same whatever
    the bound: every histogram and export, and every report whose chain has
    no Range node (a report behind another Range node counts the rows its
    filters ran, which can depend on when the whole pass stops). *)
Theorem range_bounds_branch (p : Plan) rows (a : Handle) i n :
  wf_plan p = true ->
  src_items (source p) = RowOk <$> rows ->
  nodes p !! i = Some {| up := a; kind := RangeNode n |} ->
  length (chain_rows (nodes p) (a ++ [i]) rows)
    = Nat.min n (length (chain_rows (nodes p) a rows)) /\
  (exists vs, evaluate p = Ok vs /\
     forall k act, actions p !! k = Some act -> act_spec act <> ReportSpec ->
       vs !! k = Some (batch_value (nodes p) (actions p) rows act)) /\
  (exists ps st, run_pass p (src_items (source p)) (init_pass p) = Ok ps /\
     ps_nodes ps !! i = Some st /\
     passed st = Nat.min n (length (chain_rows (nodes p) a
                   (take (node_rows (nodes p) (actions p) rows i) rows))) /\
     passed st <= n) /\
  (forall m, exists vs vs',
     evaluate p = Ok vs /\ evaluate (set_range p i m) = Ok vs' /\
     forall k act, actions p !! k = Some act -> i ∉ act_at act ->
       (act_spec act <> ReportSpec \/
        forall j u m', j ∈ act_at act -> nodes p !! j <> Some {| up := u; kind := RangeNode m' |}) ->
       vs' !! k = vs !! k).
Proof.
  intros Hwf Hsrc Hi.
  assert (Hlen : forall P, length (chain_rows (nodes p) (a ++ [i]) P)
                           = Nat.min n (length (chain_rows (nodes p) a P))).
  { intros P. rewrite chain_rows_app. cbn. rewrite Hi. cbn. apply length_take. }
  split_and!; [apply Hlen| | |].
  - exists (batch_value (nodes p) (actions p) rows <$> actions p).
    split; [by apply evaluate_batch|]. intros k act Hk _.
    by rewrite list_lookup_fmap, Hk.
  - destruct (pass_final p rows Hwf) as (ps & Hrun & (Hl & Hok & _) & _ & _).
    destruct (ps_nodes ps !! i) as [st|] eqn:Hst.
    2:{ apply lookup_ge_None in Hst. apply lookup_lt_Some in Hi. lia. }
    destruct (Hok i _ st Hi Hst) as [_ Hp]. cbn [up] in Hp.
    rewrite node_rows_take, take_take, Nat.min_l in Hp by apply node_rows_pass.
    rewrite Hlen in Hp.
    exists ps, st. rewrite Hsrc. split_and!; [done|done|done|lia].
  - intros m.
    exists (batch_value (nodes p) (actions p) rows <$> actions p),
           (batch_value (nodes (set_range p i m)) (actions p) rows <$> actions p).
    split_and!.
    + by apply evaluate_batch.
    + change (actions p) with (actions (set_range p i m)).
      apply evaluate_batch; [by rewrite wf_plan_set_range|done].
    + intros k act Hk Hnot Hkind. rewrite !list_lookup_fmap, Hk. cbn. f_equal.
      assert (Hact : act ∈ actions p) by (by eapply list_elem_of_lookup_2).
      assert (Hext : forall j, j <> i -> nodes (set_range p i m) !! j = nodes p !! j)
        by (intros j Hj; cbn; by rewrite list_lookup_alter_ne).
      apply (batch_value_indep _ _ _ _ rows act i).
      * exact Hext.
      * by apply wf_plan_actions.
      * done.
      * destruct Hkind as [Hkind|Hnr]; [by left|right].
        assert (Hnr' : forall j u m', j ∈ act_at act ->
                  nodes (set_range p i m) !! j <> Some {| up := u; kind := RangeNode m' |}).
        { intros j u m' Hj. rewrite Hext by (intros ->; done). by apply Hnr. }
        destruct (rows_norange _ _ rows act Hact Hnr) as [Hp1 Hn1].
        destruct (rows_norange _ _ rows act Hact Hnr') as [Hp2 Hn2].
        split; [rewrite Hp1; exact Hp2|].
        intros j Hj. rewrite Hn1 by done. exact (Hn2 j Hj).
Qed.

Lemma range_bounds_branch_witness :
  length (chain_rows (nodes (Scenario.analysis Scenario.events)) ([0; 1] ++ [2]) Scenario.rows) = 1.
Proof.
  destruct (range_bounds_branch (Scenario.analysis Scenario.events) Scenario.rows
              [0; 1] 2 1) as (H & _).
  - vm_compute. reflexivity.
  - reflexivity.
  - vm_compute. reflexivity.
  - rewrite H. vm_compute. reflexivity.
Defined.

Lemma filter_sublist {A : Type} (f : A -> bool) (l : list A) : List.filter f l `sublist_of` l.
Proof.
  induction l as [|x l IH]; cbn; [done|].
  destruct (f x); [by apply sublist_skip | by apply sublist_cons].
Qed.

Lemma filter_fmap_comm {A B : Type} (f : B -> bool) (g : A -> B) (l : list A) :
  List.filter f (g <$> l) = g <$> List.filter (fun x => f (g x)) l.
Proof. induction l as [|x l IH]; cbn; [done|]. destruct (f (g x)); cbn; by rewrite IH. Qed.

(** The rows leaving a chain are, in source order, the derived images of a
    subsequence of the rows entering it. *)
Lemma chain_rows_sublist (ns : list Node) (h : Handle) :
  forall (g : Row -> Row) rows0, exists sub, sub `sublist_of` rows0 /\
    chain_rows ns h (g <$> rows0) = (fun r => derive ns h (g r)) <$> sub.
Proof.
  induction h as [|i h IH]; intros g rows0.
  - exists rows0. split; [done|]. reflexivity.
  - cbn. destruct (ns !! i) as [[u k]|].
    + destruct k as [cols pred nm|c cols expr|m]; cbn [apply_kind kind].
      * rewrite filter_fmap_comm.
        destruct (IH g (List.filter (fun x => pred (g x)) rows0)) as (sub & Hsub & ->).
        exists sub. split; [|done]. etrans; [exact Hsub|apply filter_sublist].
      * destruct (IH (fun r => row_set c (expr (g r)) (g r)) rows0) as (sub & Hsub & Heq).
        exists sub. split; [done|]. rewrite <-list_fmap_compose. exact Heq.
      * rewrite <-fmap_take.
        destruct (IH g (take m rows0)) as (sub & Hsub & ->).
        exists sub. split; [|done]. etrans; [exact Hsub|apply sublist_take].
    + exists []. split; [apply sublist_nil_l|]. by rewrite chain_rows_nil.
Qed.

(** Claim C5: the buffers an AsNumpy action returns hold, for each
    requested column, that column's value in every row surviving its chain,
    in source order; each buffer is as long as the surviving rows. *)
Theorem asnumpy_buffers (p : Plan) rows k h cols :
  wf_plan p = true ->
  src_items (source p) = RowOk <$> rows ->
  actions p !! k = Some {| act_at := h; act_spec := NumpySpec cols |} ->
  exists sub vs bufs,
    sub `sublist_of` rows /\
    chain_rows (nodes p) h rows = derive (nodes p) h <$> sub /\
    evaluate p = Ok vs /\
    vs !! k = Some (NumpyV (zip cols bufs)) /\
    length bufs = length cols /\
    (forall j c buf, cols !! j = Some c -> bufs !! j = Some buf ->
       buf = (fun r => row_get c (derive (nodes p) h r)) <$> sub /\
       length buf = length (chain_rows (nodes p) h rows)).
Proof.
  intros Hwf Hsrc Hk.
  destruct (chain_rows_sublist (nodes p) h id rows) as (sub & Hsub & Hch).
  rewrite list_fmap_id in Hch.
  exists sub, (batch_value (nodes p) (actions p) rows <$> actions p),
         ((fun c => row_get c <$> chain_rows (nodes p) h rows) <$> cols).
  split_and!.
  - exact Hsub.
  - exact Hch.
  - by apply evaluate_batch.
  - by rewrite list_lookup_fmap, Hk.
  - apply length_fmap.
  - intros j c buf Hc Hb. rewrite list_lookup_fmap, Hc in Hb. injection Hb as <-.
    split; [|apply length_fmap].
    rewrite Hch, <-list_fmap_compose. done.
Qed.

Lemma asnumpy_buffers_witness :
  exists sub : list Row, sub `sublist_of` Scenario.rows /\
    chain_rows (nodes (Scenario.analysis Scenario.events)) [0; 1; 2; 3] Scenario.rows
      = derive (nodes (Scenario.analysis Scenario.events)) [0; 1; 2; 3] <$> sub.
Proof.
  destruct (asnumpy_buffers (Scenario.analysis Scenario.events) Scenario.rows 2
              [0; 1; 2; 3] ["Dimuon_mass"]) as (sub & vs & bufs & Hs & Hc & _).
  - vm_compute. reflexivity.
  - reflexivity.
  - reflexivity.
  - exists sub. split; [exact Hs|exact Hc].
Defined.

Lemma find_bin_in_range nbins (lo hi x : Q) :
  (0 < nbins)%nat -> (lo < hi)%Q -> (lo <= x)%Q -> (x < hi)%Q ->
  exists b, find_bin nbins lo hi x = Some b /\ (b < nbins)%nat.
Proof.
  intros Hn Hlh Hlo Hhi. unfold find_bin.
  assert (E1 : Qle_bool lo x = true) by (by apply Qle_bool_iff).
  assert (E2 : Qle_bool hi x = false).
  { destruct (Qle_bool hi x) eqn:E; [|done].
    apply Qle_bool_iff in E. exfalso. by apply (Qlt_not_le x hi). }
  rewrite E1, E2. cbn [andb negb]. eexists; split; [reflexivity|].
  assert (HN : (0 < inject_Z (Z.of_nat nbins))%Q).
  { change 0%Q with (inject_Z 0). rewrite <-Zlt_Qlt. lia. }
  assert (Hd : (0 < hi - lo)%Q).
  { apply Qlt_minus_iff in Hlh. exact Hlh. }
  set (q := ((x - lo) * inject_Z (Z.of_nat nbins) / (hi - lo))%Q).
  assert (Hq0 : (0 <= q)%Q).
  { unfold q. apply Qle_shift_div_l; [exact Hd|].
    rewrite Qmult_0_l. apply Qmult_le_0_compat; [|by apply Qlt_le_weak].
    apply Qle_minus_iff in Hlo. exact Hlo. }
  assert (Hq1 : (q < inject_Z (Z.of_nat nbins))%Q).
  { unfold q. apply Qlt_shift_div_r; [exact Hd|].
    rewrite (Qmult_comm (inject_Z _)). apply Qmult_lt_r; [exact HN|].
    unfold Qminus. by apply Qplus_lt_l. }
  assert (Hf0 : (0 <= Qfloor q)%Z).
  { change 0%Z with (Qfloor 0%Q). by apply Qfloor_resp_le. }
  assert (Hf1 : (Qfloor q < Z.of_nat nbins)%Z).
  { rewrite Zlt_Qlt. eapply Qle_lt_trans; [apply Qfloor_le|exact Hq1]. }
  lia.
Qed.

Lemma find_bin_out_of_range nbins (lo hi x : Q) :
  ~ (lo <= x /\ x < hi)%Q -> find_bin nbins lo hi x = None.
Proof.
  intros Hout. unfold find_bin.
  destruct (Qle_bool lo x) eqn:E1, (Qle_bool hi x) eqn:E2; cbn; try done.
  exfalso. apply Hout. apply Qle_bool_iff in E1. split; [done|].
  apply Qnot_le_lt. intros Hle. apply Qle_bool_iff in Hle. congruence.
Qed.

Lemma sum_list_alter_S (l : list nat) b :
  (b < length l)%nat -> sum_list (alter S b l) = S (sum_list l).
Proof.
  revert b. induction l as [|y l IH]; intros [|b] Hb; cbn in *; try lia.
  rewrite IH; lia.
Qed.

Lemma fill_count lo hi hs x :
  length (h_bins (fill lo hi hs x)) = length (h_bins hs) /\
  sum_list (h_bins (fill lo hi hs x)) + h_dropped (fill lo hi hs x)
    = S (sum_list (h_bins hs) + h_dropped hs).
Proof.
  unfold fill. destruct (find_bin _ lo hi x) as [b|]; [|cbn; lia].
  case_decide as Hb; cbn; [|lia].
  rewrite length_alter, sum_list_alter_S by done. lia.
Qed.

Lemma fold_fill_count lo hi (xs : list Q) :
  forall hs,
  length (h_bins (fold_left (fill lo hi) xs hs)) = length (h_bins hs) /\
  sum_list (h_bins (fold_left (fill lo hi) xs hs)) + h_dropped (fold_left (fill lo hi) xs hs)
    = sum_list (h_bins hs) + h_dropped hs + length xs.
Proof.
  induction xs as [|x xs IH]; intros hs; cbn; [lia|].
  destruct (IH (fill lo hi hs x)) as [IH1 IH2].
  destruct (fill_count lo hi hs x) as [F1 F2]. lia.
Qed.

(** Claim C6: filling a histogram with [nbins > 0] bins over [[lo, hi)]
    increments exactly the one bin [find_bin] selects for an in-range
    value and only the out-of-range count otherwise; for a booked
    histogram, the bins plus the dropped count add up to the rows surviving
    its chain, with exactly [nbins] bins. *)
Theorem histo_bins_account (p : Plan) rows k h nbins lo hi cols proj :
  wf_plan p = true ->
  src_items (source p) = RowOk <$> rows ->
  actions p !! k = Some {| act_at := h; act_spec := HistoSpec nbins lo hi cols proj |} ->
  (forall hs x, length (h_bins hs) = nbins ->
     ((0 < nbins)%nat -> (lo < hi)%Q -> (lo <= x)%Q -> (x < hi)%Q ->
        exists b, find_bin nbins lo hi x = Some b /\ (b < nbins)%nat /\
          fill lo hi hs x = {| h_bins := alter S b (h_bins hs); h_dropped := h_dropped hs |}) /\
     (~ (lo <= x /\ x < hi)%Q ->
        fill lo hi hs x = {| h_bins := h_bins hs; h_dropped := S (h_dropped hs) |})) /\
  exists vs hs, evaluate p = Ok vs /\ vs !! k = Some (HistoV hs) /\
    length (h_bins hs) = nbins /\
    sum_list (h_bins hs) + h_dropped hs = length (chain_rows (nodes p) h rows).
Proof.
  intros Hwf Hsrc Hk. split.
  - intros hs x Hlen. split.
    + intros Hn Hlh Hlo Hhi.
      destruct (find_bin_in_range nbins lo hi x Hn Hlh Hlo Hhi) as (b & Hb & Hbn).
      exists b. split_and!; [done|done|].
      unfold fill. rewrite Hlen, Hb. rewrite decide_True by done. done.
    + intros Hout. unfold fill. by rewrite find_bin_out_of_range.
  - set (hs := fold_left (fill lo hi) (proj <$> chain_rows (nodes p) h rows)
                 {| h_bins := replicate nbins 0; h_dropped := 0 |}).
    exists (batch_value (nodes p) (actions p) rows <$> actions p), hs. split_and!.
    + by apply evaluate_batch.
    + by rewrite list_lookup_fmap, Hk.
    + destruct (fold_fill_count lo hi (proj <$> chain_rows (nodes p) h rows)
                  {| h_bins := replicate nbins 0; h_dropped := 0 |}) as [H1 _].
      fold hs in H1. rewrite H1. cbn. apply length_replicate.
    + destruct (fold_fill_count lo hi (proj <$> chain_rows (nodes p) h rows)
                  {| h_bins := replicate nbins 0; h_dropped := 0 |}) as [_ H2].
      fold hs in H2. rewrite H2. cbn. rewrite sum_list_replicate, length_fmap. lia.
Qed.

Lemma histo_bins_account_witness :
  exists vs hs, evaluate (Scenario.analysis Scenario.events) = Ok vs /\
    vs !! 0 = Some (HistoV hs) /\
    sum_list (h_bins hs) + h_dropped hs
      = length (chain_rows (nodes (Scenario.analysis Scenario.events)) [0; 1; 2; 3] Scenario.rows).
Proof.
  destruct (histo_bins_account (Scenario.analysis Scenario.events) Scenario.rows 0
              [0; 1; 2; 3] 5 0 10 ["Dimuon_mass"] Scenario.mass_of)
    as (_ & vs & hs & H1 & H2 & _ & H4).
  - vm_compute. reflexivity.
  - reflexivity.
  - reflexivity.
  - exists vs, hs. split_and!; [exact H1|exact H2|exact H4].
Defined.

(** Claim C7: a Filter whose predicate reads a column unknown on the chain
    fails with [InvalidExpression], and a Define of a column already known
    on the chain fails with [NameCollision]; both failures happen while the
    plan is built and return the plan unchanged. *)
Theorem construction_errors_fail_fast (p : Plan) (h : Handle) :
  (forall cols pred name c, c ∈ cols -> c ∉ columns_at p h ->
     Filter p h cols pred name = (p, Err InvalidExpression)) /\
  (forall c cols expr, c ∈ columns_at p h ->
     Define p h c cols expr = (p, Err NameCollision)).
Proof.
  split.
  - intros cols pred name c Hc Hnot. unfold Filter.
    destruct (refs_ok (columns_at p h) cols) eqn:E; [|done].
    exfalso. apply Hnot. unfold refs_ok in E. rewrite forallb_forall in E.
    apply (bool_decide_eq_true_1 _), E, list_elem_of_In, Hc.
  - intros c cols expr Hc. unfold Define. by rewrite bool_decide_true.
Qed.

Lemma construction_errors_fail_fast_witness :
  Filter (Scenario.analysis Scenario.events) [0] ["nope"] (fun _ => true) None
    = (Scenario.analysis Scenario.events, Err InvalidExpression) /\
  Define (Scenario.analysis Scenario.events) [0] "nMuon" [] (fun _ => VNum 0)
    = (Scenario.analysis Scenario.events, Err NameCollision).
Proof.
  destruct (construction_errors_fail_fast (Scenario.analysis Scenario.events) [0])
    as [HF HD].
  split.
  - apply (HF ["nope"] (fun _ => true) None "nope").
    + apply (bool_decide_eq_true_1 _). vm_compute. reflexivity.
    + apply (bool_decide_eq_false_1 _). vm_compute. reflexivity.
  - apply HD. apply (bool_decide_eq_true_1 _). vm_compute. reflexivity.
Defined.

End EngineProofs.

(* ===================================================================== *)
(** * Adopted arrays are views of the owner's buffer *)
(* ===================================================================== *)

Module AdoptionProofs.
Import Adoption.

Lemma adopt_view (hp : Heap) (o : Owner) xs :
  hp !! own_buf o = Some xs ->
  adopt hp o = Some {| view_buf := own_buf o; view_len := length xs |}.
Proof. intros Hb. unfold adopt. by rewrite Hb. Qed.

Lemma set_then_view (hp : Heap) (o : Owner) xs i x :
  hp !! own_buf o = Some xs -> (i < length xs)%nat ->
  let v := {| view_buf := own_buf o; view_len := length xs |} in
  exists hp', owner_set hp o i x = Some hp' /\
    view_get hp' v i = Some x /\
    forall j, j <> i -> view_get hp' v j = view_get hp v j.
Proof.
  intros Hb Hi v. exists (<[own_buf o := <[i := x]> xs]> hp). split_and!.
  - unfold owner_set. rewrite Hb. cbn. by rewrite decide_True.
  - unfold view_get. cbn. rewrite decide_True by done.
    rewrite lookup_insert_eq. cbn. by apply list_lookup_insert_eq.
  - intros j Hj. unfold view_get. cbn.
    case_decide; [|done].
    rewrite lookup_insert_eq, Hb. cbn. by apply list_lookup_insert_ne.
Qed.

(** Claim C8: adopting an array with [np.asarray] or [AsRVec] copies
    nothing: for every index [i] valid for the owner, the view reads what the
    owner holds, and after [owner[i] = x] both views read [x] at [i] while
    their other indices are unchanged. *)
Theorem adoption_zero_copy (hp : Heap) (o : Owner) i x y :
  owner_get hp o i = Some y ->
  exists v1 v2 hp',
    np_asarray hp o = Some v1 /\ AsRVec hp o = Some v2 /\
    view_get hp v1 i = Some y /\ view_get hp v2 i = Some y /\
    owner_set hp o i x = Some hp' /\
    view_get hp' v1 i = Some x /\ view_get hp' v2 i = Some x /\
    (forall j, j <> i ->
       view_get hp' v1 j = view_get hp v1 j /\ view_get hp' v2 j = view_get hp v2 j).
Proof.
  intros Hy. unfold owner_get in Hy.
  destruct (hp !! own_buf o) as [xs|] eqn:Hb; cbn in Hy; [|discriminate].
  assert (Hi : (i < length xs)%nat) by (by eapply lookup_lt_Some).
  set (v := {| view_buf := own_buf o; view_len := length xs |}).
  destruct (set_then_view hp o xs i x Hb Hi) as (hp' & Hset & Hx & Hother).
  assert (Hv : view_get hp v i = Some y).
  { unfold view_get. cbn. rewrite decide_True by done. by rewrite Hb. }
  exists v, v, hp'. split_and!; try done.
  - by apply adopt_view.
  - by apply adopt_view.
  - intros j Hj. by rewrite Hother.
Qed.

Lemma adoption_zero_copy_witness :
  let '(hp, o) := alloc ∅ [1; 2; 3]%Q in
  exists v hp', np_asarray hp o = Some v /\ owner_set hp o 0 42%Q = Some hp' /\
    view_get hp' v 0 = Some 42%Q.
Proof.
  destruct (adoption_zero_copy (fst (alloc ∅ [1; 2; 3]%Q)) (snd (alloc ∅ [1; 2; 3]%Q))
              0 42%Q 1%Q) as (v & _ & hp' & H1 & _ & _ & _ & H2 & H3 & _ & _).
  - vm_compute. reflexivity.
  - exists v, hp'. split_and!; [exact H1|exact H2|exact H3].
Defined.

(** The notebook's two cells: after [v1[0] = 42], the adopted array shows
    [42, 2, 3]. *)
Example notebook_cells_show_42 :
  notebook_cell np_asarray = Some [Some 42%Q; Some 2%Q; Some 3%Q] /\
  notebook_cell AsRVec = Some [Some 42%Q; Some 2%Q; Some 3%Q].
Proof. split; vm_compute; reflexivity. Qed.

End AdoptionProofs.

(* ===================================================================== *)
(** * Further properties of the [largest_sum] kernels *)
(* ===================================================================== *)

Module LargestSumExtras.
Import LargestSum LargestSumProofs.

Lemma fold_left_ext_in {A B : Type} (f g : B -> A -> B) (l : list A) (b : B) :
  (forall acc x, x ∈ l -> f acc x = g acc x) -> fold_left f l b = fold_left g l b.
Proof.
  revert b. induction l as [|x l IH]; intros b Hfg; [done|]. cbn.
  rewrite (Hfg b x) by (apply elem_of_cons; by left).
  apply IH. intros acc y Hy. apply Hfg, elem_of_cons. by right.
Qed.

(** The C++ [largest_sum] only reads [v1[0..size)] and
    [v2[0..size)]; when both buffers hold at least [size] elements it
    returns what the Python [largest_sum] returns on those prefixes, for
    any element type, addition and comparison (so also for [float]). *)
Theorem largest_sum_cpp_prefix {F : Type} (fadd : F -> F -> F) (fgt : F -> F -> bool)
    (m999 : F) (v1 v2 : list F) (size : nat) :
  size <= length v1 -> size <= length v2 ->
  largest_sum_cpp fadd fgt m999 v1 v2 size
    = Some (largest_sum_py fadd fgt m999 (take size v1) (take size v2)).
Proof.
  intros H1 H2.
  rewrite <-(largest_sum_cpp_py fadd fgt m999 (take size v1) (take size v2) size)
    by (rewrite length_take; lia).
  unfold largest_sum_cpp. apply fold_left_ext_in. intros acc i1 Hi1.
  apply elem_of_seq in Hi1.
  apply fold_left_ext_in. intros acc' i2 Hi2. apply elem_of_seq in Hi2.
  rewrite !lookup_take_lt by lia. done.
Qed.

Lemma largest_sum_cpp_prefix_witness :
  largest_sum_cpp_Z [1; 5; 7]%Z [2; 3]%Z 2
    = Some (largest_sum_py_Z (take 2 [1; 5; 7]%Z) (take 2 [2; 3]%Z)).
Proof. apply (largest_sum_cpp_prefix Z.add Z.gtb (-999)%Z); cbn; lia. Defined.

(** The Python [largest_sum] returns its initial value [-999.0] when either
    input is empty, for any element type. *)
Theorem largest_sum_py_empty {F : Type} (fadd : F -> F -> F) (fgt : F -> F -> bool)
    (m999 : F) (x1 x2 : list F) :
  largest_sum_py fadd fgt m999 [] x2 = m999 /\
  largest_sum_py fadd fgt m999 x1 [] = m999.
Proof.
  split; [done|]. unfold largest_sum_py. cbn.
  induction x1 as [|e1 x1 IH]; [done|]. exact IH.
Qed.



Lemma elem_of_all_sums_mem (v1 v2 : list Z) s :
  s ∈ all_sums v1 v2 <-> exists a b, a ∈ v1 /\ b ∈ v2 /\ s = (a + b)%Z.
Proof.
  unfold all_sums. rewrite list_elem_of_bind. split.
  - intros (a & Hs & Ha). apply list_elem_of_fmap in Hs as (b & -> & Hb). eauto.
  - intros (a & b & Ha & Hb & ->). exists a. split; [|done].
    apply list_elem_of_fmap. by exists b.
Qed.

Lemma fold_max_unique (l1 l2 : list Z) r0 :
  (forall x, x ∈ l1 <-> x ∈ l2) -> fold_left Z.max l1 r0 = fold_left Z.max l2 r0.
Proof.
  intros Hl.
  destruct (fold_max_spec l1 r0) as (A1 & B1 & C1).
  destruct (fold_max_spec l2 r0) as (A2 & B2 & C2).
  cbv zeta in *.
  assert (fold_left Z.max l1 r0 <= fold_left Z.max l2 r0)%Z.
  { destruct C1 as [->|C1]; [done|]. apply B2, Hl, C1. }
  assert (fold_left Z.max l2 r0 <= fold_left Z.max l1 r0)%Z.
  { destruct C2 as [->|C2]; [done|]. apply B1, Hl, C2. }
  lia.
Qed.

Lemma fold_max_shift (l : list Z) a b :
  fold_left Z.max l (Z.max a b) = Z.max a (fold_left Z.max l b).
Proof.
  revert b. induction l as [|x l IH]; intros b; [done|]. cbn.
  by rewrite <-Z.max_assoc, IH.
Qed.

(** With exact values, the Python [largest_sum] depends only on the sets of
    values of its inputs (not on their order or repetitions) and is
    symmetric in its two arguments. *)
Theorem largest_sum_py_Z_sets (x1 x2 y1 y2 : list Z) :
  ((forall a, a ∈ x1 <-> a ∈ y1) -> (forall b, b ∈ x2 <-> b ∈ y2) ->
   largest_sum_py_Z x1 x2 = largest_sum_py_Z y1 y2) /\
  largest_sum_py_Z x1 x2 = largest_sum_py_Z x2 x1.
Proof.
  rewrite !largest_sum_py_Z_fold. unfold sentinel_max_of_sums. split.
  - intros H1 H2. apply fold_max_unique. intros s. rewrite !elem_of_all_sums_mem.
    split; intros (a & b & Ha & Hb & ->); exists a, b;
      rewrite ?H1, ?H2 in *; by split_and!.
  - apply fold_max_unique. intros s. rewrite !elem_of_all_sums_mem.
    split; intros (a & b & Ha & Hb & ->); exists b, a; split_and!; auto; lia.
Qed.

Lemma largest_sum_py_Z_sets_witness :
  largest_sum_py_Z [1; 2]%Z [3]%Z = largest_sum_py_Z [2; 1; 1]%Z [3; 3]%Z.
Proof.
  destruct (largest_sum_py_Z_sets [1; 2]%Z [3]%Z [2; 1; 1]%Z [3; 3]%Z) as [H _].
  apply H; intros c; rewrite !elem_of_cons, ?elem_of_nil; lia.
Defined.

(** With exact values, the Python [largest_sum] over a concatenation is the
    larger of the results over the parts, in either argument: the loop can
    be split into chunks and the chunk results combined with [max]. *)
Theorem largest_sum_py_Z_split (x1 y1 x2 y2 : list Z) :
  largest_sum_py_Z (x1 ++ y1) x2 = Z.max (largest_sum_py_Z x1 x2) (largest_sum_py_Z y1 x2) /\
  largest_sum_py_Z x1 (x2 ++ y2) = Z.max (largest_sum_py_Z x1 x2) (largest_sum_py_Z x1 y2).
Proof.
  rewrite !largest_sum_py_Z_fold. unfold sentinel_max_of_sums.
  assert (Happ : forall l1 l2,
    fold_left Z.max (l1 ++ l2) (-999)%Z
    = Z.max (fold_left Z.max l1 (-999)%Z) (fold_left Z.max l2 (-999)%Z)).
  { intros l1 l2. rewrite fold_left_app, <-fold_max_shift.
    destruct (fold_max_spec l1 (-999)%Z) as (A & _). cbv zeta in A.
    by rewrite Z.max_l by lia. }
  split.
  - unfold all_sums. by rewrite bind_app, Happ.
  - rewrite <-Happ. apply fold_max_unique. intros s.
    rewrite elem_of_app, !elem_of_all_sums_mem. split.
    + intros (a & b & Ha & Hb & ->). apply elem_of_app in Hb as [Hb|Hb]; eauto 10.
    + intros [(a & b & Ha & Hb & ->)|(a & b & Ha & Hb & ->)];
        exists a, b; rewrite elem_of_app; eauto.
Qed.

End LargestSumExtras.

(* ===================================================================== *)
(** * Properties of [compute_mass] *)
(* ===================================================================== *)

Module DimuonMassProofs.
Import Stdlib.Reals.Reals Stdlib.micromega.Lra Stdlib.micromega.Psatz DimuonMass.
Local Open Scope R_scope.





Lemma compute_mass_cons pt0 pt1 eta0 eta1 phi0 phi1 m0 m1 pts etas phis ms :
  compute_mass (pt0 :: pt1 :: pts) (eta0 :: eta1 :: etas) (phi0 :: phi1 :: phis) (m0 :: m1 :: ms)
  = Some (mass (add {| fPt := pt0; fEta := eta0; fPhi := phi0; fM := m0 |}
                    {| fPt := pt1; fEta := eta1; fPhi := phi1; fM := m1 |})).
Proof. reflexivity. Qed.

(** [compute_mass] reads only the first two entries of its four inputs, and
    swapping the two muons does not change the result. *)
Theorem compute_mass_first_two_symmetric pt0 pt1 eta0 eta1 phi0 phi1 m0 m1
    pts etas phis ms :
  compute_mass (pt0 :: pt1 :: pts) (eta0 :: eta1 :: etas) (phi0 :: phi1 :: phis) (m0 :: m1 :: ms)
  = compute_mass [pt1; pt0] [eta1; eta0] [phi1; phi0] [m1; m0].
Proof.
  rewrite !compute_mass_cons. do 2 f_equal. unfold add. f_equal; ring.
Qed.



End DimuonMassProofs.

(* ===================================================================== *)
(** * The notebooks' event selections *)
(* ===================================================================== *)

Module NotebookProofs.
Import Engine EngineProofs Notebooks.
Local Open Scope string_scope.

Lemma refs_ok_intro (avail cols : list string) :
  (forall c, c ∈ cols -> c ∈ avail) -> refs_ok avail cols = true.
Proof.
  intros H. unfold refs_ok. apply forallb_forall. intros c Hc.
  apply bool_decide_eq_true, H, list_elem_of_In, Hc.
Qed.

Lemma Filter_ok (p : Plan) h cols pred nm :
  (forall c, c ∈ cols -> c ∈ columns_at p h) ->
  Filter p h cols pred nm
  = ({| source := source p; nodes := (nodes p ++ [{| up := h; kind := FilterNode cols pred nm |}])%list;
        actions := actions p |}, Ok (h ++ [length (nodes p)])%list).
Proof. intros H. unfold Filter. by rewrite refs_ok_intro. Qed.

Lemma Define_ok (p : Plan) h c cols expr :
  c ∉ columns_at p h ->
  (forall c', c' ∈ cols -> c' ∈ columns_at p h) ->
  Define p h c cols expr
  = ({| source := source p; nodes := (nodes p ++ [{| up := h; kind := DefineNode c cols expr |}])%list;
        actions := actions p |}, Ok (h ++ [length (nodes p)])%list).
Proof. intros Hc H. unfold Define. by rewrite bool_decide_false, refs_ok_intro. Qed.

Lemma Histo1D_ok (p : Plan) h nbins lo hi cols proj :
  (forall c, c ∈ cols -> c ∈ columns_at p h) ->
  Histo1D p h nbins lo hi cols proj
  = ({| source := source p; nodes := nodes p;
        actions := (actions p ++ [{| act_at := h; act_spec := HistoSpec nbins lo hi cols proj |}])%list |},
     Ok (length (actions p))).
Proof. intros H. unfold Histo1D. by rewrite refs_ok_intro. Qed.

Lemma AsNumpy_ok (p : Plan) h cols :
  (forall c, c ∈ cols -> c ∈ columns_at p h) ->
  AsNumpy p h cols
  = ({| source := source p; nodes := nodes p;
        actions := (actions p ++ [{| act_at := h; act_spec := NumpySpec cols |}])%list |},
     Ok (length (actions p))).
Proof. intros H. unfold AsNumpy. by rewrite refs_ok_intro. Qed.

Lemma dimuon_analysis_ok (src : Source) (dimuon_mass : Row -> Value) :
  Forall (fun c => c ∈ src_columns src) ("nMuon" :: "Muon_charge" :: mass_inputs) ->
  "Dimuon_mass" ∉ src_columns src ->
  dimuon_analysis src dimuon_mass = Ok (dimuon_plan src dimuon_mass, 0%nat, 1%nat).
Proof.
  intros Hcols Hfresh. rewrite Forall_forall in Hcols. unfold dimuon_analysis.
  rewrite Filter_ok.
  2:{ intros c Hc. apply elem_of_app. left. apply Hcols. set_solver. }
  cbn -[Filter Define Histo1D Nat.of_num_uint].
  rewrite Filter_ok.
  2:{ intros c Hc. apply elem_of_app. left. apply Hcols. set_solver. }
  cbn -[Filter Define Histo1D Nat.of_num_uint].
  rewrite Define_ok.
  3:{ intros c Hc. apply elem_of_app. left. apply Hcols. set_solver. }
  2:{ unfold columns_at. cbn. rewrite app_nil_r. exact Hfresh. }
  cbn -[Filter Define Histo1D Nat.of_num_uint].
  rewrite Histo1D_ok.
  2:{ intros c Hc. apply elem_of_app. right. cbn. set_solver. }
  cbn -[Nat.of_num_uint]. done.
Qed.

Lemma interop_asnumpy_ok (src : Source) (dimuon_mass : Row -> Value) :
  Forall (fun c => c ∈ src_columns src) ("nMuon" :: mass_inputs) ->
  "Dimuon_mass" ∉ src_columns src ->
  interop_asnumpy src dimuon_mass
  = Ok ({| source := src;
           nodes := [{| up := []; kind := FilterNode ["nMuon"] Scenario.two_muons None |};
                     {| up := [0%nat]; kind := FilterNode ["Muon_pt"] distinct_pt None |};
                     {| up := [0%nat; 1%nat]; kind := DefineNode "Dimuon_mass" mass_inputs dimuon_mass |};
                     {| up := [0%nat; 1%nat; 2%nat]; kind := RangeNode 10000 |}];
           actions := [{| act_at := [0%nat; 1%nat; 2%nat; 3%nat];
                          act_spec := NumpySpec ["Dimuon_mass"] |}] |}, 0%nat).
Proof.
  intros Hcols Hfresh. rewrite Forall_forall in Hcols. unfold interop_asnumpy.
  rewrite Filter_ok.
  2:{ intros c Hc. apply elem_of_app. left. apply Hcols. set_solver. }
  cbn -[Filter Define AsNumpy Nat.of_num_uint].
  rewrite Filter_ok.
  2:{ intros c Hc. apply elem_of_app. left. apply Hcols. set_solver. }
  cbn -[Filter Define AsNumpy Nat.of_num_uint].
  rewrite Define_ok.
  3:{ intros c Hc. apply elem_of_app. left. apply Hcols. set_solver. }
  2:{ unfold columns_at. cbn. rewrite app_nil_r. exact Hfresh. }
  cbn -[Filter Define AsNumpy Nat.of_num_uint].
  rewrite AsNumpy_ok.
  2:{ intros c Hc. apply elem_of_app. right. cbn. set_solver. }
  cbn -[Nat.of_num_uint]. done.
Qed.

(** Run on a source whose rows all read successfully, the analysis
    notebook's histogram [hist] is filled with the [Dimuon_mass] of the
    first 100000 events that have exactly two muons of opposite charge, in
    source order; it has 5000 bins over [[2, 200)], and its bin contents
    plus its out-of-range count equal the number of those events. *)
Theorem dimuon_analysis_histogram (src : Source) (dimuon_mass : Row -> Value) (rows : list Row) :
  Forall (fun c => c ∈ src_columns src) ("nMuon" :: "Muon_charge" :: mass_inputs) ->
  "Dimuon_mass" ∉ src_columns src ->
  src_items src = RowOk <$> rows ->
  let selected := take 100000 (List.filter Scenario.opposite_charge
                                 (List.filter Scenario.two_muons rows)) in
  exists p hist report vs hs,
    dimuon_analysis src dimuon_mass = Ok (p, hist, report) /\
    evaluate p = Ok vs /\ vs !! hist = Some (HistoV hs) /\
    hs = fold_left (fill 2 200)
           ((fun r => Scenario.mass_of (row_set "Dimuon_mass" (dimuon_mass r) r)) <$> selected)
           {| h_bins := replicate 5000 0%nat; h_dropped := 0%nat |} /\
    length (h_bins hs) = 5000%nat /\
    (sum_list (h_bins hs) + h_dropped hs)%nat
      = Nat.min 100000 (length (List.filter Scenario.opposite_charge
                                  (List.filter Scenario.two_muons rows))).
Proof.
  intros Hcols Hfresh Hsrc selected.
  rewrite (dimuon_analysis_ok src dimuon_mass Hcols Hfresh).
  set (hs := fold_left (fill 2 200)
           ((fun r => Scenario.mass_of (row_set "Dimuon_mass" (dimuon_mass r) r)) <$> selected)
           {| h_bins := replicate 5000 0%nat; h_dropped := 0%nat |}).
  destruct (fold_fill_count 2 200
              ((fun r => Scenario.mass_of (row_set "Dimuon_mass" (dimuon_mass r) r)) <$> selected)
              {| h_bins := replicate 5000 0%nat; h_dropped := 0%nat |}) as [H1 H2].
  fold hs in H1, H2.
  eexists _, 0%nat, 1%nat, _, hs. split_and!.
  - reflexivity.
  - apply evaluate_batch; [reflexivity|exact Hsrc].
  - cbn -[Nat.of_num_uint fold_left fill]. rewrite <-list_fmap_compose. reflexivity.
  - reflexivity.
  - rewrite H1. apply length_replicate.
  - rewrite H2. cbn [h_bins h_dropped]. rewrite sum_list_replicate, length_fmap.
    unfold selected. rewrite length_take. lia.
Qed.

Lemma dimuon_analysis_histogram_witness :
  exists p hist report vs hs,
    dimuon_analysis sample_events Scenario.compute_mass = Ok (p, hist, report) /\
    evaluate p = Ok vs /\ vs !! hist = Some (HistoV hs) /\
    (sum_list (h_bins hs) + h_dropped hs)%nat
      = Nat.min 100000 (length (List.filter Scenario.opposite_charge
                                  (List.filter Scenario.two_muons Scenario.rows))).
Proof.
  destruct (dimuon_analysis_histogram sample_events Scenario.compute_mass Scenario.rows)
    as (p & hist & report & vs & hs & H1 & H2 & H3 & _ & _ & H6).
  - apply (bool_decide_eq_true_1 _). vm_compute. reflexivity.
  - apply (bool_decide_eq_false_1 _). vm_compute. reflexivity.
  - reflexivity.
  - exists p, hist, report, vs, hs. split_and!; assumption.
Defined.

Local Open Scope nat_scope.

Lemma live_len_ext (f g : list Row -> bool) P R :
  (forall X, f X = g X) -> live_len f P R = live_len g P R.
Proof.
  intros H. revert P; induction R as [|r R IH]; intros P; cbn; [done|].
  rewrite H. destruct (g P); [by rewrite IH|done].
Qed.

Lemma live_len_before live P R t :
  t < live_len live P R -> live (app P (take t R)) = true.
Proof.
  revert P t; induction R as [|r R IH]; intros P t; cbn; [lia|].
  destruct (live P) eqn:HP; [|lia]. intros H. destruct t as [|t].
  - cbn. by rewrite app_nil_r.
  - cbn. specialize (IH (app P [r]) t ltac:(lia)). by rewrite <-app_assoc in IH.
Qed.

Lemma filter2_app (g1 g2 : Row -> bool) (A B : list Row) :
  List.filter g2 (List.filter g1 (app A B))
  = app (List.filter g2 (List.filter g1 A)) (List.filter g2 (List.filter g1 B)).
Proof. by rewrite !List.filter_app. Qed.

Lemma filter2_take_le (g1 g2 : Row -> bool) (rows : list Row) n :
  List.length (List.filter g2 (List.filter g1 (take n rows)))
  <= List.length (List.filter g2 (List.filter g1 rows)).
Proof.
  rewrite <-(firstn_skipn n rows) at 2. rewrite filter2_app, length_app. lia.
Qed.

Lemma filter2_take_S (g1 g2 : Row -> bool) (rows : list Row) n :
  List.length (List.filter g2 (List.filter g1 (take (S n) rows)))
  <= S (List.length (List.filter g2 (List.filter g1 (take n rows)))).
Proof.
  rewrite <-Nat.add_1_r, <-take_take_drop, filter2_app, length_app.
  pose proof (filter_length_le' g2 (List.filter g1 (take 1 (drop n rows)))).
  pose proof (filter_length_le' g1 (take 1 (drop n rows))).
  rewrite length_take in *. lia.
Qed.

(** In the analysis plan every node and action lies behind the Range: the
    whole chain runs while fewer than 100000 events have passed both
    filters. *)
Lemma dimuon_plan_live (src : Source) (dimuon_mass : Row -> Value) P :
  pass_live_b (nodes (dimuon_plan src dimuon_mass)) (actions (dimuon_plan src dimuon_mass)) P
    = (List.length (List.filter Scenario.opposite_charge (List.filter Scenario.two_muons P))
         <? 100000) /\
  forall i, i ∈ [0; 1; 2; 3] ->
    node_live_b (nodes (dimuon_plan src dimuon_mass)) (actions (dimuon_plan src dimuon_mass)) P i
    = pass_live_b (nodes (dimuon_plan src dimuon_mass)) (actions (dimuon_plan src dimuon_mass)) P.
Proof.
  assert (Ha : forall sp, action_live_b (nodes (dimuon_plan src dimuon_mass)) P
                            {| act_at := [0; 1; 2; 3]; act_spec := sp |}
               = (List.length (List.filter Scenario.opposite_charge (List.filter Scenario.two_muons P))
                    <? 100000)).
  { intros sp. unfold action_live_b, range_done_b.
    cbn -[Nat.of_num_uint take Nat.leb Nat.ltb]. rewrite length_take.
    destruct (Nat.leb_spec 100000
      (Nat.min 100000 (List.length (List.filter Scenario.opposite_charge
                                 (List.filter Scenario.two_muons P)))));
    destruct (Nat.ltb_spec (List.length (List.filter Scenario.opposite_charge
                                      (List.filter Scenario.two_muons P))) 100000);
    cbn; lia. }
  split.
  - unfold pass_live_b. cbn [dimuon_plan actions existsb]. rewrite !Ha.
    by destruct (_ <? _).
  - intros i Hi. unfold node_live_b, pass_live_b. cbn [dimuon_plan actions existsb act_at].
    rewrite !Ha, bool_decide_true by exact Hi. by destruct (_ <? _).
Qed.

(** The analysis notebook's cut-flow [report] lists the two named filters,
    in booking order, each with the events it accepted and the events that
    reached it; the Range and the Define do not appear.  Both filters ran
    the first [t] events of the source, [t] being the root total: the pass
    reads events while fewer than 100000 of them have passed both filters,
    so it stops right after the 100000th selected event, or at the end of
    a source that has fewer; the selected events counted are the first
    [min 100000 (all selected)]. *)
Theorem dimuon_analysis_report (src : Source) (dimuon_mass : Row -> Value) (rows : list Row) :
  Forall (fun c => c ∈ src_columns src) ("nMuon" :: "Muon_charge" :: mass_inputs) ->
  "Dimuon_mass" ∉ src_columns src ->
  src_items src = RowOk <$> rows ->
  let sel P := List.filter Scenario.opposite_charge (List.filter Scenario.two_muons P) in
  exists p hist report vs t,
    dimuon_analysis src dimuon_mass = Ok (p, hist, report) /\
    evaluate p = Ok vs /\
    vs !! report = Some (ReportV
      {| entries :=
           [{| ci_name := "Events with exactly two muons";
               ci_pass := List.length (List.filter Scenario.two_muons (take t rows));
               ci_all := t |};
            {| ci_name := "Muons with opposite charge";
               ci_pass := List.length (sel (take t rows));
               ci_all := List.length (List.filter Scenario.two_muons (take t rows)) |}];
         root_total := t |}) /\
    t <= length rows /\
    (forall t', t' < t -> List.length (sel (take t' rows)) < 100000) /\
    (t = length rows \/ List.length (sel (take t rows)) = 100000) /\
    List.length (sel (take t rows)) = Nat.min 100000 (List.length (sel rows)).
Proof.
  intros Hcols Hfresh Hsrc sel.
  rewrite (dimuon_analysis_ok src dimuon_mass Hcols Hfresh).
  set (ns := nodes (dimuon_plan src dimuon_mass)).
  set (acts := actions (dimuon_plan src dimuon_mass)).
  remember (pass_rows ns acts rows) as t eqn:Htdef.
  assert (Hnode : forall i, i ∈ [0; 1; 2; 3] -> node_rows ns acts rows i = t).
  { intros i Hi. unfold node_rows. rewrite Htdef. unfold pass_rows. apply live_len_ext.
    intros X. by apply dimuon_plan_live. }
  assert (Ht : t = live_len (fun P => List.length (sel P) <? 100000) [] rows).
  { rewrite Htdef. unfold pass_rows. apply live_len_ext. intros X. apply dimuon_plan_live. }
  assert (Hle : t <= List.length rows) by (rewrite Ht; apply live_len_le).
  assert (H100 : 0 < 100000).
  { apply Nat.ltb_lt. vm_compute. reflexivity. }
  assert (Hbefore : forall t', t' < t -> List.length (sel (take t' rows)) < 100000).
  { intros t' Hlt. rewrite Ht in Hlt. apply live_len_before in Hlt.
    by apply Nat.ltb_lt in Hlt. }
  assert (Hstop : t = length rows \/ List.length (sel (take t rows)) = 100000).
  { destruct (decide (t < length rows)) as [Hlt|Hge]; [right|left; lia].
    pose proof Hlt as Hs. rewrite Ht in Hs. apply live_len_stop in Hs.
    rewrite <-Ht in Hs. cbn [app] in Hs. apply Nat.ltb_ge in Hs.
    destruct t as [|t'].
    - rewrite take_0 in Hs. unfold sel in Hs. cbn [List.filter List.length] in Hs. lia.
    - pose proof (Hbefore t' ltac:(lia)).
      pose proof (filter2_take_S Scenario.two_muons Scenario.opposite_charge rows t').
      unfold sel in *. lia. }
  exists (dimuon_plan src dimuon_mass), 0%nat, 1%nat,
    (batch_value ns acts rows <$> acts), t.
  split_and!; [reflexivity| | |exact Hle|exact Hbefore|exact Hstop|].
  - apply evaluate_batch; [reflexivity|exact Hsrc].
  - assert (Hrep : batch_report ns acts rows [0; 1; 2; 3]
                   = {| entries := cut_entries ns (fun _ => take t rows) [0; 1; 2; 3];
                        root_total := t |}).
    { unfold batch_report, cut_entries. f_equal; [|done]. apply bind_ext_in.
      intros i Hi. by rewrite Hnode. }
    transitivity (Some (ReportV (batch_report ns acts rows [0; 1; 2; 3]))); [reflexivity|].
    rewrite Hrep. unfold ns. cbn -[Nat.of_num_uint take].
    rewrite length_take, Nat.min_l by lia. reflexivity.
  - pose proof (filter2_take_le Scenario.two_muons Scenario.opposite_charge rows t).
    destruct Hstop as [E|E].
    + rewrite E, firstn_all. fold (sel rows).
      destruct (length rows) as [|n] eqn:Hn.
      * apply nil_length_inv in Hn. rewrite Hn. cbn. lia.
      * pose proof (Hbefore n ltac:(lia)).
        pose proof (filter2_take_S Scenario.two_muons Scenario.opposite_charge rows n).
        rewrite <-Hn, firstn_all in *. unfold sel in *. lia.
    + unfold sel in *. lia.
Qed.

Lemma dimuon_analysis_report_witness :
  exists p hist report vs t,
    dimuon_analysis sample_events Scenario.compute_mass = Ok (p, hist, report) /\
    evaluate p = Ok vs /\ report = 1%nat /\ t = 4%nat /\
    vs !! report = Some (ReportV
      {| entries :=
           [{| ci_name := "Events with exactly two muons";
               ci_pass := List.length (List.filter Scenario.two_muons (take t Scenario.rows));
               ci_all := t |};
            {| ci_name := "Muons with opposite charge";
               ci_pass := List.length (List.filter Scenario.opposite_charge
                                    (List.filter Scenario.two_muons (take t Scenario.rows)));
               ci_all := List.length (List.filter Scenario.two_muons (take t Scenario.rows)) |}];
         root_total := t |}).
Proof.
  destruct (dimuon_analysis_report sample_events Scenario.compute_mass Scenario.rows)
    as (p & hist & report & vs & t & H1 & H2 & H3 & H4 & _ & H6 & _).
  - apply (bool_decide_eq_true_1 _). vm_compute. reflexivity.
  - apply (bool_decide_eq_false_1 _). vm_compute. reflexivity.
  - reflexivity.
  - exists p, hist, report, vs, t. split_and!; [exact H1|exact H2| | |exact H3].
    + rewrite (dimuon_analysis_ok sample_events Scenario.compute_mass) in H1.
      * by injection H1.
      * apply (bool_decide_eq_true_1 _). vm_compute. reflexivity.
      * apply (bool_decide_eq_false_1 _). vm_compute. reflexivity.
    + destruct H6 as [E|E]; [exact E|].
      exfalso.
      pose proof (filter2_take_le Scenario.two_muons Scenario.opposite_charge Scenario.rows t)
        as Hle.
      rewrite E in Hle. apply Nat.leb_le in Hle. revert Hle. vm_compute. discriminate.
Defined.

Local Open Scope string_scope.

(** The interoperability notebook's [AsNumpy] returns a single column
    [Dimuon_mass] holding, in source order, the mass of each of the first
    10000 events with exactly two muons of different transverse momenta;
    it holds at most 10000 values. *)
Theorem interop_asnumpy_column (src : Source) (dimuon_mass : Row -> Value) (rows : list Row) :
  Forall (fun c => c ∈ src_columns src) ("nMuon" :: mass_inputs) ->
  "Dimuon_mass" ∉ src_columns src ->
  src_items src = RowOk <$> rows ->
  let col := (fun r => Some (dimuon_mass r))
               <$> take 10000 (List.filter distinct_pt (List.filter Scenario.two_muons rows)) in
  exists p npy vs,
    interop_asnumpy src dimuon_mass = Ok (p, npy) /\
    evaluate p = Ok vs /\
    vs !! npy = Some (NumpyV [("Dimuon_mass", col)]) /\
    (length col <= 10000)%nat.
Proof.
  intros Hcols Hfresh Hsrc col.
  rewrite (interop_asnumpy_ok src dimuon_mass Hcols Hfresh).
  eexists _, 0%nat, _. split_and!.
  - reflexivity.
  - apply evaluate_batch; [reflexivity|exact Hsrc].
  - cbn -[Nat.of_num_uint]. do 4 f_equal. unfold col.
    rewrite <-!fmap_take, <-list_fmap_compose. reflexivity.
  - unfold col. rewrite length_fmap, length_take. lia.
Qed.

Lemma interop_asnumpy_column_witness :
  exists p npy vs,
    interop_asnumpy sample_events Scenario.compute_mass = Ok (p, npy) /\
    evaluate p = Ok vs /\
    vs !! npy = Some (NumpyV [("Dimuon_mass",
      (fun r => Some (Scenario.compute_mass r))
        <$> take 10000 (List.filter distinct_pt (List.filter Scenario.two_muons Scenario.rows)))]).
Proof.
  destruct (interop_asnumpy_column sample_events Scenario.compute_mass Scenario.rows)
    as (p & npy & vs & H1 & H2 & H3 & _).
  - apply (bool_decide_eq_true_1 _). vm_compute. reflexivity.
  - apply (bool_decide_eq_false_1 _). vm_compute. reflexivity.
  - reflexivity.
  - exists p, npy, vs. split_and!; assumption.
Defined.

Lemma Filter_err (p : Plan) h cols pred nm :
  refs_ok (columns_at p h) cols = false -> Filter p h cols pred nm = (p, Err InvalidExpression).
Proof. intros H. unfold Filter. by rewrite H. Qed.

Lemma Define_collision (p : Plan) h c cols expr :
  c ∈ columns_at p h -> Define p h c cols expr = (p, Err NameCollision).
Proof. intros H. unfold Define. by rewrite bool_decide_true. Qed.

(** Both notebook cells fail while the chain is built, before any event is
    read: with [InvalidExpression] on a source without an [nMuon] column,
    and with [NameCollision] on a source that already has a [Dimuon_mass]
    column (and the columns the filters read). *)
Theorem notebook_cells_build_errors (src : Source) (dimuon_mass : Row -> Value) :
  ("nMuon" ∉ src_columns src ->
   dimuon_analysis src dimuon_mass = Err InvalidExpression /\
   interop_asnumpy src dimuon_mass = Err InvalidExpression) /\
  (Forall (fun c => c ∈ src_columns src) ("nMuon" :: "Muon_charge" :: mass_inputs) ->
   "Dimuon_mass" ∈ src_columns src ->
   dimuon_analysis src dimuon_mass = Err NameCollision /\
   interop_asnumpy src dimuon_mass = Err NameCollision).
Proof.
  split.
  - intros Hn.
    assert (Hr : refs_ok (columns_at {| source := src; nodes := []; actions := [] |} [])
                   ["nMuon"] = false).
    { unfold refs_ok, columns_at. cbn [forallb defined_cols source nodes].
      rewrite bool_decide_false; [done|]. cbn. by rewrite app_nil_r. }
    unfold dimuon_analysis, interop_asnumpy. rewrite !Filter_err by exact Hr. done.
  - intros Hcols Hin. rewrite Forall_forall in Hcols.
    assert (Hc : forall (cols : list string) p h, (forall c, c ∈ cols -> c ∈ "nMuon" :: "Muon_charge" :: mass_inputs) ->
               (forall c, c ∈ cols -> c ∈ (src_columns src ++ defined_cols p h)%list)).
    { intros cols p h Hs c Hcin. apply elem_of_app. left. by apply Hcols, Hs. }
    split.
    + unfold dimuon_analysis.
      rewrite Filter_ok by (apply Hc; set_solver).
      cbn -[Filter Define Histo1D Nat.of_num_uint].
      rewrite Filter_ok by (apply Hc; set_solver).
      cbn -[Filter Define Histo1D Nat.of_num_uint].
      rewrite Define_collision by (apply elem_of_app; by left).
      done.
    + unfold interop_asnumpy.
      rewrite Filter_ok by (apply Hc; set_solver).
      cbn -[Filter Define AsNumpy Nat.of_num_uint].
      rewrite Filter_ok by (apply Hc; set_solver).
      cbn -[Filter Define AsNumpy Nat.of_num_uint].
      rewrite Define_collision by (apply elem_of_app; by left).
      done.
Qed.

Lemma notebook_cells_build_errors_witness :
  dimuon_analysis
    {| src_name := "Events"; src_columns := "Dimuon_mass" :: nanoaod_columns;
       src_items := [] |} Scenario.compute_mass = Err NameCollision.
Proof.
  destruct (notebook_cells_build_errors
              {| src_name := "Events"; src_columns := "Dimuon_mass" :: nanoaod_columns;
                 src_items := [] |} Scenario.compute_mass) as [_ H].
  apply H.
  - apply (bool_decide_eq_true_1 _). vm_compute. reflexivity.
  - apply (bool_decide_eq_true_1 _). vm_compute. reflexivity.
Defined.

End NotebookProofs.
